(** * Boombox scene script (scripts/script.js)

    The script is glue code over a host runtime: it looks up five scene
    objects by name, builds two looping animations and binds them to scale
    channels, and subscribes callbacks to the pan, pinch and rotate gesture
    streams.  The development below embeds the script as a program in a
    small state-and-exception monad over an explicit model of the host
    (scene objects, time drivers, signals, event subscriptions), and proves
    properties of the worlds the script can reach.

    JavaScript numbers are rationals here: the script only passes them to
    the host, and the signal methods it calls ([mul], [add]) return signal
    expressions that the host evaluates. *)

From Stdlib Require Import QArith Qround ZArith.
From stdpp Require Import gmap strings list fin_maps.

Local Open Scope Q_scope.
Local Open Scope string_scope.

(** ** Host data: signals, transforms, scene objects *)

(** [Animation.samplers.easeInQuint(a,b)] and [easeOutElastic(a,b)]: the two
    sampler constructors the script calls, with their start and end values. *)
Inductive Sampler : Type :=
| EaseInQuint (from to : Q)
| EaseOutElastic (from to : Q).



(** [loopCount] is a JS number; the script uses [Infinity]. *)
Inductive LoopCount : Type :=
| Loops (n : N)
| Infinity.

(** The object literal passed to [Animation.timeDriver]. *)
Record DriverParameters : Type := {
  durationMilliseconds : Z;
  loopCount : LoopCount;
  mirror : bool
}.

(** A time driver owned by the host: its parameters and whether [start()]
    has been called on it. *)
Record TimeDriver : Type := {
  parameters : DriverParameters;
  running : bool
}.

(** Scalar signals, as expressions the host evaluates every frame.
    [Live i] is a signal the host drives itself (the [scale] of a pinch
    gesture, the [rotation] of a rotate gesture); [Animate d s] is
    [Animation.animate(d, s)] for the driver with handle [d]. *)
Inductive Signal : Type :=
| Const (v : Q)
| Live (input : nat)
| Animate (driver : nat) (sampler : Sampler)
| Mul (a b : Signal)
| Add (a b : Signal).

Inductive Channel : Type :=
| PositionX | PositionY | PositionZ
| ScaleX | ScaleY | ScaleZ
| RotationX | RotationY | RotationZ.

(** A transform: each channel holds the signal currently bound to it. *)
Record Transform : Type := {
  positionX : Signal; positionY : Signal; positionZ : Signal;
  scaleX : Signal; scaleY : Signal; scaleZ : Signal;
  rotationX : Signal; rotationY : Signal; rotationZ : Signal
}.

Definition getChannel (c : Channel) (t : Transform) : Signal :=
  match c with
  | PositionX => positionX t | PositionY => positionY t | PositionZ => positionZ t
  | ScaleX => scaleX t | ScaleY => scaleY t | ScaleZ => scaleZ t
  | RotationX => rotationX t | RotationY => rotationY t | RotationZ => rotationZ t
  end.

(** The property write [t.c = s]. *)
Definition setChannel (c : Channel) (s : Signal) (t : Transform) : Transform :=
  {| positionX := match c with PositionX => s | _ => positionX t end;
     positionY := match c with PositionY => s | _ => positionY t end;
     positionZ := match c with PositionZ => s | _ => positionZ t end;
     scaleX := match c with ScaleX => s | _ => scaleX t end;
     scaleY := match c with ScaleY => s | _ => scaleY t end;
     scaleZ := match c with ScaleZ => s | _ => scaleZ t end;
     rotationX := match c with RotationX => s | _ => rotationX t end;
     rotationY := match c with RotationY => s | _ => rotationY t end;
     rotationZ := match c with RotationZ => s | _ => rotationZ t end |}.

Record Point2D : Type := { pointX : Q; pointY : Q }.

(** A scene object: its transform and, for a plane tracker, the point (and
    gesture state) last handed to [trackPoint]. *)
Record SceneObject : Type := {
  transform : Transform;
  tracked : option (Point2D * string)
}.

(** ** Gestures and events *)

Record PanGesture : Type := { location : Point2D; state : string }.
Record PinchGesture : Type := { scale : Signal }.
Record RotateGesture : Type := { rotation : Signal }.

Inductive Event : Type :=
| Pan (g : PanGesture)
| Pinch (g : PinchGesture)
| Rotate (g : RotateGesture).

Inductive Stream : Type := PanStream | PinchStream | RotateStream.

(** ** The record of host calls

    Every method call on a host object (a module, a scene object, an event
    source, a signal) and every property write is logged in the order it
    happens. Property reads ([Scene.root], [base.transform],
    [gesture.scale], [snapshot.lastScaleX]) are not calls and are not
    logged. An operand read from a snapshot is [None] when the key is
    missing, JavaScript's [undefined]. *)
Inductive Call : Type :=
| CallFind (name : string)
| CallTimeDriver (p : DriverParameters)
| CallStart (driver : nat)
| CallEaseInQuint (from to : Q)
| CallEaseOutElastic (from to : Q)
| CallAnimate (driver : nat) (sampler : Sampler)
| CallAssign (node : string) (c : Channel) (s : Signal)
| CallOn (s : Stream)
| CallSubscribe (s : Stream)
| CallSubscribeWithSnapshot (s : Stream) (keys : list string)
| CallTrackPoint (node : string) (p : Point2D) (st : string)
| CallMul (s : Signal) (operand : option Q)
| CallAdd (s : Signal) (operand : option Q).

(** ** Host state *)

Record Scene : Type := {
  nodes : gmap string SceneObject;
  drivers : list TimeDriver;
  calls : list Call
}.

(** ** A state monad with exceptions

    [None] is a thrown exception; the state reached when it was thrown is
    kept, as in JavaScript. *)
Definition M (S A : Type) : Type := S → option A * S.

Definition ret {S A} (a : A) : M S A := λ s, (Some a, s).

Definition bind {S A B} (m : M S A) (k : A → M S B) : M S B :=
  λ s, match m s with
       | (Some a, s') => k a s'
       | (None, s') => (None, s')
       end.

Definition throw {S A} : M S A := λ s, (None, s).

Declare Scope script_scope.
Delimit Scope script_scope with script.
Notation "'let*' x ':=' m 'in' k" := (bind m (λ x, k))
  (at level 10, x name, m at level 100, k at level 200) : script_scope.
Notation "m ';;;' k" := (bind m (λ _, k))
  (at level 100, k at level 200, right associativity) : script_scope.
Local Open Scope script_scope.

(** A snapshot dictionary entry: the signal whose value is wanted.
    [Property n c] is what reading [n.transform.c] returns: the signal of
    that property, which follows whatever is bound to the channel (the
    script relies on it to read the placer's "current" scale and rotation
    after earlier gestures have rebound them). *)
Inductive Source : Type :=
| Property (node : string) (c : Channel)
| Given (s : Signal).

(** A subscription: the callback closure, and for [subscribeWithSnapshot]
    the dictionary of signals to sample. The snapshot handed to a callback
    maps each name to a number. *)
Inductive Subscription : Type :=
| OnPan (callback : PanGesture → M Scene unit)
| OnPinch (snapshot : gmap string Source)
          (callback : PinchGesture → gmap string Q → M Scene unit)
| OnRotate (snapshot : gmap string Source)
           (callback : RotateGesture → gmap string Q → M Scene unit).

Record World : Type := {
  scene : Scene;
  subscriptions : list Subscription
}.

(** ** Host API *)

Definition log (c : Call) : M Scene unit :=
  λ s, (Some tt, {| nodes := nodes s; drivers := drivers s;
                    calls := calls s ++ [c] |}).

(** [sceneRoot.find(name)]: the handle of the object of that name; the host
    throws when there is none. A handle is the object's name. *)
Definition find (name : string) : M Scene string :=
  log (CallFind name) ;;;
  λ s, match nodes s !! name with
       | Some _ => ret name s
       | None => throw s
       end.

(** [Animation.timeDriver(p)]: a new driver, not yet running. *)
Definition timeDriver (p : DriverParameters) : M Scene nat :=
  log (CallTimeDriver p) ;;;
  λ s, (Some (length (drivers s)),
        {| nodes := nodes s;
           drivers := drivers s ++ [{| parameters := p; running := false |}];
           calls := calls s |}).

(** [d.start()] *)
Definition start (d : nat) : M Scene unit :=
  log (CallStart d) ;;;
  λ s, (Some tt,
        {| nodes := nodes s;
           drivers := alter (λ t, {| parameters := parameters t;
                                     running := true |}) d (drivers s);
           calls := calls s |}).

Definition easeInQuint (a b : Q) : M Scene Sampler :=
  log (CallEaseInQuint a b) ;;; ret (EaseInQuint a b).

Definition easeOutElastic (a b : Q) : M Scene Sampler :=
  log (CallEaseOutElastic a b) ;;; ret (EaseOutElastic a b).

(** [Animation.animate(d, s)] *)
Definition animate (d : nat) (s : Sampler) : M Scene Signal :=
  log (CallAnimate d s) ;;; ret (Animate d s).

Definition withTransform (f : Transform → Transform) (o : SceneObject)
  : SceneObject :=
  {| transform := f (transform o); tracked := tracked o |}.

(** The property write [n.transform.c = sig]. *)
Definition assign (n : string) (c : Channel) (sig : Signal) : M Scene unit :=
  log (CallAssign n c sig) ;;;
  λ s, (Some tt,
        {| nodes := alter (withTransform (setChannel c sig)) n (nodes s);
           drivers := drivers s;
           calls := calls s |}).

(** [n.trackPoint(p, st)]: new plane detection at [p]; the tracker's
    position is updated to the point. *)
Definition trackPoint (n : string) (p : Point2D) (st : string) : M Scene unit :=
  log (CallTrackPoint n p st) ;;;
  λ s, (Some tt,
        {| nodes := alter (λ o, {| transform := transform o;
                                   tracked := Some (p, st) |}) n (nodes s);
           drivers := drivers s;
           calls := calls s |}).

(** Operations on the scene, run from the top level of the script. *)
Definition onScene {A} (m : M Scene A) : M World A :=
  λ w, let '(r, s) := m (scene w) in
       (r, {| scene := s; subscriptions := subscriptions w |}).

Definition register (sub : Subscription) : M World unit :=
  λ w, (Some tt, {| scene := scene w;
                    subscriptions := subscriptions w ++ [sub] |}).

(** [TouchGestures.onPan().subscribe(cb)] *)
Definition onPan_subscribe (cb : PanGesture → M Scene unit) : M World unit :=
  onScene (log (CallOn PanStream)) ;;;
  onScene (log (CallSubscribe PanStream)) ;;;
  register (OnPan cb).

(** [TouchGestures.onPinch().subscribeWithSnapshot(dict, cb)] *)
Definition onPinch_subscribeWithSnapshot (dict : list (string * Source))
    (cb : PinchGesture → gmap string Q → M Scene unit) : M World unit :=
  onScene (log (CallOn PinchStream)) ;;;
  onScene (log (CallSubscribeWithSnapshot PinchStream dict.*1)) ;;;
  register (OnPinch (list_to_map dict) cb).

(** [TouchGestures.onRotate().subscribeWithSnapshot(dict, cb)] *)
Definition onRotate_subscribeWithSnapshot (dict : list (string * Source))
    (cb : RotateGesture → gmap string Q → M Scene unit) : M World unit :=
  onScene (log (CallOn RotateStream)) ;;;
  onScene (log (CallSubscribeWithSnapshot RotateStream dict.*1)) ;;;
  register (OnRotate (list_to_map dict) cb).

(** [s.mul(v)] and [s.add(v)] with a number operand: the product or sum
    signal. Reading a missing key of a snapshot gives [undefined]; the host
    rejects an [undefined] operand, so the call throws. *)
Definition mul (s : Signal) (v : option Q) : M Scene Signal :=
  log (CallMul s v) ;;;
  match v with
  | Some q => ret (Mul s (Const q))
  | None => throw
  end.

Definition add (s : Signal) (v : option Q) : M Scene Signal :=
  log (CallAdd s v) ;;;
  match v with
  | Some q => ret (Add s (Const q))
  | None => throw
  end.

(** ** The script (scripts/script.js) *)

Definition baseDriverParameters : DriverParameters :=
  {| durationMilliseconds := 400; loopCount := Infinity; mirror := true |}.

Definition speakerDriverParameters : DriverParameters :=
  {| durationMilliseconds := 200; loopCount := Infinity; mirror := true |}.

(** The callback subscribed to [onPan()]; [planeTracker] is the handle the
    closure captured. *)
Definition panCallback (planeTracker : string) (gesture : PanGesture)
  : M Scene unit :=
  trackPoint planeTracker (location gesture) (state gesture).

(** The callback subscribed to [onPinch()]. *)
Definition pinchCallback (placerTransform : string) (gesture : PinchGesture)
    (snapshot : gmap string Q) : M Scene unit :=
  let* x := mul (scale gesture) (snapshot !! "lastScaleX") in
  assign placerTransform ScaleX x ;;;
  let* y := mul (scale gesture) (snapshot !! "lastScaleY") in
  assign placerTransform ScaleY y ;;;
  let* z := mul (scale gesture) (snapshot !! "lastScaleZ") in
  assign placerTransform ScaleZ z.

(** The callback subscribed to [onRotate()]. *)
Definition rotateCallback (placerTransform : string) (gesture : RotateGesture)
    (snapshot : gmap string Q) : M Scene unit :=
  let* correctRotation := mul (rotation gesture) (Some (-1)) in
  let* y := add correctRotation (snapshot !! "lastRotationY") in
  assign placerTransform RotationY y.

Definition script : M World unit :=
  let* base := onScene (find "base_jnt") in
  let* speakerLeft := onScene (find "speaker_left_jnt") in
  let* speakerRight := onScene (find "speaker_right_jnt") in
  let* planeTracker := onScene (find "planeTracker0") in
  let* placer := onScene (find "placer") in
  let* baseDriver := onScene (timeDriver baseDriverParameters) in
  onScene (start baseDriver) ;;;
  let* speakerDriver := onScene (timeDriver speakerDriverParameters) in
  onScene (start speakerDriver) ;;;
  let* baseSampler := onScene (easeInQuint 0.9 1) in
  let* speakerSampler := onScene (easeOutElastic 0.7 0.85) in
  let* baseAnimation := onScene (animate baseDriver baseSampler) in
  let* speakerAnimation := onScene (animate speakerDriver speakerSampler) in
  let baseTransform := base in
  onScene (assign baseTransform ScaleX baseAnimation) ;;;
  onScene (assign baseTransform ScaleY baseAnimation) ;;;
  onScene (assign baseTransform ScaleZ baseAnimation) ;;;
  let speakerLeftTransform := speakerLeft in
  onScene (assign speakerLeftTransform ScaleX speakerAnimation) ;;;
  onScene (assign speakerLeftTransform ScaleY speakerAnimation) ;;;
  onScene (assign speakerLeftTransform ScaleZ speakerAnimation) ;;;
  let speakerRightTransform := speakerRight in
  onScene (assign speakerRightTransform ScaleX speakerAnimation) ;;;
  onScene (assign speakerRightTransform ScaleY speakerAnimation) ;;;
  onScene (assign speakerRightTransform ScaleZ speakerAnimation) ;;;
  onPan_subscribe (panCallback planeTracker) ;;;
  let placerTransform := placer in
  onPinch_subscribeWithSnapshot
    [("lastScaleX", Property placerTransform ScaleX);
     ("lastScaleY", Property placerTransform ScaleY);
     ("lastScaleZ", Property placerTransform ScaleZ)]
    (pinchCallback placerTransform) ;;;
  onRotate_subscribeWithSnapshot
    [("lastRotationY", Property placerTransform RotationY)]
    (rotateCallback placerTransform).

(** Loading the script into a scene with the given objects. *)
Definition initial (objects : gmap string SceneObject) : World :=
  {| scene := {| nodes := objects; drivers := []; calls := [] |};
     subscriptions := [] |}.

Definition load (objects : gmap string SceneObject) : option unit * World :=
  script (initial objects).

(** ** What the host does with signals and events *)

(** What the host reads at one instant: the clock in milliseconds and the
    current values of the signals it drives. *)
Record Frame : Type := { now : Z; live : nat → Q }.

(** The host's animation engine: the progress of a driver at a time, and
    the curve of a sampler. Neither is part of the script. *)
Record Engine : Type := {
  progress : TimeDriver → Z → Q;
  sample : Sampler → Q → Q
}.

Section Semantics.
Variable engine : Engine.

Fixpoint eval (sc : Scene) (f : Frame) (s : Signal) : Q :=
  match s with
  | Const v => v
  | Live i => live f i
  | Animate d smp =>
      match drivers sc !! d with
      | Some t => sample engine smp (progress engine t (now f))
      | None => 0
      end
  | Mul a b => eval sc f a * eval sc f b
  | Add a b => eval sc f a + eval sc f b
  end.

(** The value of a channel of a scene object at frame [f]. *)
Definition channelValue (sc : Scene) (f : Frame) (n : string) (c : Channel)
  : option Q :=
  o ← nodes sc !! n; Some (eval sc f (getChannel c (transform o))).

Definition sourceValue (sc : Scene) (f : Frame) (src : Source) : option Q :=
  match src with
  | Property n c => channelValue sc f n c
  | Given s => Some (eval sc f s)
  end.

(** The snapshot of a [subscribeWithSnapshot] dictionary: the value each
    signal has when the event is delivered. The script's comments describe
    it so: the method "allows us to capture signal values at the time the
    gesture is detected", and the values passed to the pinch callback are
    "the current x, y and z scale values of the placerTransform". *)
Definition takeSnapshot (sc : Scene) (f : Frame) (dict : gmap string Source)
  : gmap string Q :=
  omap (sourceValue sc f) dict.

(** One subscription receives one event. *)
Definition notify (f : Frame) (e : Event) (sub : Subscription)
  : M Scene unit :=
  match sub, e with
  | OnPan cb, Pan g => cb g
  | OnPinch dict cb, Pinch g => λ sc, cb g (takeSnapshot sc f dict) sc
  | OnRotate dict cb, Rotate g => λ sc, cb g (takeSnapshot sc f dict) sc
  | _, _ => ret tt
  end.

Fixpoint notifyAll (f : Frame) (e : Event) (subs : list Subscription)
  : M Scene unit :=
  match subs with
  | [] => ret tt
  | sub :: rest => notify f e sub ;;; notifyAll f e rest
  end.

(** The host delivers a gesture event to the subscribers. *)
Definition deliver (f : Frame) (e : Event) : M World unit :=
  λ w, onScene (notifyAll f e (subscriptions w)) w.

(** The worlds the script can be in: just loaded, or after any number of
    gesture events. *)
Inductive reachable (objects : gmap string SceneObject) : World → Prop :=
| reach_load w :
    load objects = (Some tt, w) → reachable objects w
| reach_event w f e r w' :
    reachable objects w → deliver f e w = (r, w') → reachable objects w'.
End Semantics.

(** ** Observations used in the statements *)

(** The signal bound to channel [c] of the object named [n]. *)
Definition channel (w : World) (n : string) (c : Channel) : option Signal :=
  (λ o, getChannel c (transform o)) <$> nodes (scene w) !! n.

Definition scaleChannels : list Channel := [ScaleX; ScaleY; ScaleZ].

Definition speakerNames : list string :=
  ["speaker_left_jnt"; "speaker_right_jnt"].

(** The names the script looks up. *)
Definition sceneNames : list string :=
  ["base_jnt"; "speaker_left_jnt"; "speaker_right_jnt"; "planeTracker0";
   "placer"].

Definition has_objects (objects : gmap string SceneObject) : Prop :=
  Forall (λ n, is_Some (objects !! n)) sceneNames.


(** What the script leaves behind: the two drivers, the two animation
    signals and the three subscriptions. *)
Definition scriptDrivers : list TimeDriver :=
  [{| parameters := baseDriverParameters; running := true |};
   {| parameters := speakerDriverParameters; running := true |}].

Definition baseAnimation : Signal := Animate 0 (EaseInQuint 0.9 1).
Definition speakerAnimation : Signal := Animate 1 (EaseOutElastic 0.7 0.85).

Definition pinchDictionary : gmap string Source :=
  list_to_map [("lastScaleX", Property "placer" ScaleX);
               ("lastScaleY", Property "placer" ScaleY);
               ("lastScaleZ", Property "placer" ScaleZ)].

Definition rotateDictionary : gmap string Source :=
  list_to_map [("lastRotationY", Property "placer" RotationY)].

Definition scriptSubscriptions : list Subscription :=
  [OnPan (panCallback "planeTracker0");
   OnPinch pinchDictionary (pinchCallback "placer");
   OnRotate rotateDictionary (rotateCallback "placer")].

(** The four phases of the load, as the calls each one makes. *)
Definition lookupCalls : list Call := CallFind <$> sceneNames.

Definition constructionCalls : list Call :=
  [CallTimeDriver baseDriverParameters; CallStart 0;
   CallTimeDriver speakerDriverParameters; CallStart 1;
   CallEaseInQuint 0.9 1; CallEaseOutElastic 0.7 0.85;
   CallAnimate 0 (EaseInQuint 0.9 1);
   CallAnimate 1 (EaseOutElastic 0.7 0.85)].

Definition bindingCalls : list Call :=
  ((λ c, CallAssign "base_jnt" c baseAnimation) <$> scaleChannels) ++
  ((λ c, CallAssign "speaker_left_jnt" c speakerAnimation) <$> scaleChannels) ++
  ((λ c, CallAssign "speaker_right_jnt" c speakerAnimation) <$> scaleChannels).

Definition subscriptionCalls : list Call :=
  [CallOn PanStream; CallSubscribe PanStream;
   CallOn PinchStream;
   CallSubscribeWithSnapshot PinchStream
     ["lastScaleX"; "lastScaleY"; "lastScaleZ"];
   CallOn RotateStream;
   CallSubscribeWithSnapshot RotateStream ["lastRotationY"]].

(** How often a stream was subscribed, and a driver started, in a trace. *)
Definition isSubscription (s : Stream) (c : Call) : bool :=
  match c, s with
  | CallSubscribe PanStream, PanStream
  | CallSubscribe PinchStream, PinchStream
  | CallSubscribe RotateStream, RotateStream
  | CallSubscribeWithSnapshot PanStream _, PanStream
  | CallSubscribeWithSnapshot PinchStream _, PinchStream
  | CallSubscribeWithSnapshot RotateStream _, RotateStream => true
  | _, _ => false
  end.

Definition isStart (d : nat) (c : Call) : bool :=
  match c with
  | CallStart d' => Nat.eqb d d'
  | _ => false
  end.

Definition count (p : Call → bool) (trace : list Call) : nat :=
  length (List.filter p trace).

(** The scene the load produces from [objects]. *)
Definition bound (objects : gmap string SceneObject)
  : gmap string SceneObject :=
  let bind3 n sig m :=
    alter (withTransform (setChannel ScaleZ sig)) n
      (alter (withTransform (setChannel ScaleY sig)) n
         (alter (withTransform (setChannel ScaleX sig)) n m)) in
  bind3 "speaker_right_jnt" speakerAnimation
    (bind3 "speaker_left_jnt" speakerAnimation
       (bind3 "base_jnt" baseAnimation objects)).

Definition loaded (objects : gmap string SceneObject) : World :=
  {| scene := {| nodes := bound objects;
                 drivers := scriptDrivers;
                 calls := lookupCalls ++ constructionCalls ++ bindingCalls
                          ++ subscriptionCalls |};
     subscriptions := scriptSubscriptions |}.

(** ** The worlds the callbacks produce *)

(** The world after a successful or failed [find n]: the call is logged. *)
Definition found (n : string) (w : World) : World :=
  {| scene := {| nodes := nodes (scene w); drivers := drivers (scene w);
                 calls := calls (scene w) ++ [CallFind n] |};
     subscriptions := subscriptions w |}.

(** The scene after the pan callback ran. *)
Definition panned (g : PanGesture) (sc : Scene) : Scene :=
  {| nodes := alter (λ o, {| transform := transform o;
                             tracked := Some (location g, state g) |})
                "planeTracker0" (nodes sc);
     drivers := drivers sc;
     calls := calls sc
              ++ [CallTrackPoint "planeTracker0" (location g) (state g)] |}.

(** The scene after the pinch callback ran on snapshot values [vx vy vz]. *)
Definition pinched (g : PinchGesture) (vx vy vz : Q) (sc : Scene) : Scene :=
  {| nodes :=
       alter (withTransform (setChannel ScaleZ (Mul (scale g) (Const vz))))
         "placer"
         (alter (withTransform (setChannel ScaleY (Mul (scale g) (Const vy))))
            "placer"
            (alter (withTransform
                      (setChannel ScaleX (Mul (scale g) (Const vx))))
               "placer" (nodes sc)));
     drivers := drivers sc;
     calls := calls sc
              ++ [CallMul (scale g) (Some vx);
                  CallAssign "placer" ScaleX (Mul (scale g) (Const vx));
                  CallMul (scale g) (Some vy);
                  CallAssign "placer" ScaleY (Mul (scale g) (Const vy));
                  CallMul (scale g) (Some vz);
                  CallAssign "placer" ScaleZ (Mul (scale g) (Const vz))] |}.

(** The scene after the rotate callback ran on snapshot value [v]. *)
Definition rotated (g : RotateGesture) (v : Q) (sc : Scene) : Scene :=
  {| nodes :=
       alter (withTransform
                (setChannel RotationY
                   (Add (Mul (rotation g) (Const (-1))) (Const v))))
         "placer" (nodes sc);
     drivers := drivers sc;
     calls := calls sc
              ++ [CallMul (rotation g) (Some (-1));
                  CallAdd (Mul (rotation g) (Const (-1))) (Some v);
                  CallAssign "placer" RotationY
                    (Add (Mul (rotation g) (Const (-1))) (Const v))] |}.

Definition withScene (sc : Scene) (w : World) : World :=
  {| scene := sc; subscriptions := subscriptions w |}.

(** ** What every reachable world looks like *)

Record settled (w : World) : Prop := {
  settled_subscriptions : subscriptions w = scriptSubscriptions;
  settled_drivers : drivers (scene w) = scriptDrivers;
  settled_base : ∀ c, c ∈ scaleChannels →
    channel w "base_jnt" c = Some baseAnimation;
  settled_left : ∀ c, c ∈ scaleChannels →
    channel w "speaker_left_jnt" c = Some speakerAnimation;
  settled_right : ∀ c, c ∈ scaleChannels →
    channel w "speaker_right_jnt" c = Some speakerAnimation;
  settled_tracker : is_Some (nodes (scene w) !! "planeTracker0");
  settled_placer : is_Some (nodes (scene w) !! "placer")
}.

(** ** A reference scene and engine *)

Definition restTransform : Transform :=
  {| positionX := Const 0; positionY := Const 0; positionZ := Const 0;
     scaleX := Const 1; scaleY := Const 1; scaleZ := Const 1;
     rotationX := Const 0; rotationY := Const 0; rotationZ := Const 0 |}.

Definition restObject : SceneObject :=
  {| transform := restTransform; tracked := None |}.

Definition boombox : gmap string SceneObject :=
  list_to_map ((λ n, (n, restObject)) <$> sceneNames).

(** A looping driver: a triangle wave over one loop when mirrored (back at
    the start value when the loop ends), a ramp otherwise. *)
Definition loopProgress (t : TimeDriver) (ms : Z) : Q :=
  let d := durationMilliseconds (parameters t) in
  if negb (running t) || (d <=? 0)%Z then 0 else
  let r := (ms mod d)%Z in
  if mirror (parameters t)
  then (if (2 * r <=? d)%Z then 2 * r # Z.to_pos d
        else 2 * (d - r) # Z.to_pos d)
  else r # Z.to_pos d.

(** The elastic ease-out, 1 + 2^(-10x) sin((10x - 3/4) 2pi/3), at the tenths
    of the progress, where it is rational: the sine is -1, 1/2, 1/2 in turn
    and the envelope halves at every tenth. It starts at 0 and passes 1 on
    its way to 1: 5/4 at one tenth, 9/8 at two, 7/8 at three. *)
Definition elasticTenth (k : nat) : Q :=
  1 + match (k mod 3)%nat with O => -1 | _ => 1 # 2 end * (1 # 2) ^ Z.of_nat k.

(** The elastic ease-out held from each tenth of the progress to the next;
    1 from progress 1 on. *)
Definition elasticOut (x : Q) : Q :=
  if Qle_bool 1 x then 1 else elasticTenth (Z.to_nat (Qfloor (10 * x))).

(** The curves of the two samplers: the quintic ease-in and the elastic
    ease-out, between the start and end values. *)
Definition referenceSample (s : Sampler) (x : Q) : Q :=
  match s with
  | EaseInQuint a b => a + (b - a) * (x * x * x * x * x)
  | EaseOutElastic a b => a + (b - a) * elasticOut x
  end.

Definition referenceEngine : Engine :=
  {| progress := loopProgress; sample := referenceSample |}.



Definition rest : Frame := {| now := 0; live := λ _, 1 |}.


(** Two pinches in a row: the first is held at twice the fingers' starting
    distance, the second at three times. *)
Definition firstPinch : PinchGesture := {| scale := Live 0 |}.
Definition secondPinch : PinchGesture := {| scale := Live 1 |}.
Definition pinching : Frame :=
  {| now := 1000; live := λ i, match i with O => 2 | _ => 3 end |}.

(** Two rotations in a row, by a quarter and by half a radian. *)
Definition firstRotate : RotateGesture := {| rotation := Live 0 |}.
Definition secondRotate : RotateGesture := {| rotation := Live 1 |}.
Definition rotating : Frame :=
  {| now := 1000; live := λ i, match i with O => 1 # 4 | _ => 1 # 2 end |}.

Definition swipe : PanGesture :=
  {| location := {| pointX := 120; pointY := 340 |}; state := "BEGAN" |}.

(** ** Contract of the host's animation engine

    The engine is the host's. The script's comments state what it expects of
    it: with [mirror] "the animation will have returned to its starting value
    by the time it has finished a loop", a loop lasts
    [durationMilliseconds], and the animated signal is "changing between 0.9
    and 1 every 0.4 seconds". *)



(** ** The claims as they would read with snapshots taken at subscription *)

(** Pinch: every scale channel of the placer follows the gesture's scale
    times the value the channel had at frame [f0], when the script
    subscribed. *)
Definition pinch_scales_from_subscription (engine : Engine)
    (objects : gmap string SceneObject) (f0 : Frame) : Prop :=
  ∀ w f g r w' c v0,
    reachable engine objects w →
    deliver engine f (Pinch g) w = (r, w') →
    c ∈ scaleChannels →
    channelValue engine (scene (loaded objects)) f0 "placer" c = Some v0 →
    ∀ f', ∃ v, channelValue engine (scene w') f' "placer" c = Some v
               ∧ v == eval engine (scene w') f' (scale g) * v0.

(** Rotate: the y rotation of the placer follows the negated gesture
    rotation plus the value it had at frame [f0], when the script
    subscribed. *)
Definition rotate_adds_to_subscription (engine : Engine)
    (objects : gmap string SceneObject) (f0 : Frame) : Prop :=
  ∀ w f g r w' v0,
    reachable engine objects w →
    deliver engine f (Rotate g) w = (r, w') →
    channelValue engine (scene (loaded objects)) f0 "placer" RotationY
    = Some v0 →
    ∀ f', ∃ v, channelValue engine (scene w') f' "placer" RotationY = Some v
               ∧ v == eval engine (scene w') f' (rotation g) * -1 + v0.

(** ** The animation claims as they would read for every host engine *)



(** ** The callbacks as total functions of gesture and snapshot *)


Definition pinchKeys : list (Channel * string) :=
  [(ScaleX, "lastScaleX"); (ScaleY, "lastScaleY"); (ScaleZ, "lastScaleZ")].

(** The channels a callback writes on the placer. *)
Definition written (e : Event) : list Channel :=
  match e with
  | Pan _ => []
  | Pinch _ => scaleChannels
  | Rotate _ => [RotationY]
  end.

(** ** Sequences of events *)

(** The world after the host delivered [e] at frame [f]. *)
Definition after (engine : Engine) (f : Frame) (e : Event) (w : World)
  : World :=
  (deliver engine f e w).2.

(** The world after the host delivered the events of [es] in order, each
    at its own frame. *)
Definition deliverAll (engine : Engine) (es : list (Frame * Event))
    (w : World) : World :=
  fold_left (λ w fe, after engine fe.1 fe.2 w) es w.

Definition kind (e : Event) : Stream :=
  match e with
  | Pan _ => PanStream
  | Pinch _ => PinchStream
  | Rotate _ => RotateStream
  end.

(** What the subscribed callbacks do to the object named [n] when [e] is
    delivered at frame [f] in scene [sc]. *)
Definition react (engine : Engine) (sc : Scene) (f : Frame) (e : Event)
    (n : string) (o : SceneObject) : SceneObject :=
  match e with
  | Pan g =>
      if decide (n = "planeTracker0")
      then {| transform := transform o;
              tracked := Some (location g, state g) |}
      else o
  | Pinch g =>
      if decide (n = "placer")
      then withTransform
             (λ t, setChannel ScaleZ
                     (Mul (scale g) (Const (eval engine sc f (scaleZ t))))
                     (setChannel ScaleY
                        (Mul (scale g) (Const (eval engine sc f (scaleY t))))
                        (setChannel ScaleX
                           (Mul (scale g)
                              (Const (eval engine sc f (scaleX t)))) t)))
             o
      else o
  | Rotate g =>
      if decide (n = "placer")
      then withTransform
             (λ t, setChannel RotationY
                     (Add (Mul (rotation g) (Const (-1)))
                        (Const (eval engine sc f (rotationY t)))) t)
             o
      else o
  end.

(** The value over time of channel [c] of the placer after the events of
    [es], when it was [cur] before: a pinch rescales the three scale
    channels from their value at the frame of the pinch, a rotate offsets
    [rotationY] from its value at the frame of the rotate, and nothing else
    matters. *)
Fixpoint placerValue (engine : Engine) (sc : Scene) (c : Channel)
    (es : list (Frame * Event)) (cur : Frame → Q) : Frame → Q :=
  match es with
  | [] => cur
  | (f, e) :: more =>
      placerValue engine sc c more
        match e, c with
        | Pinch g, (ScaleX | ScaleY | ScaleZ) =>
            λ f', eval engine sc f' (scale g) * cur f
        | Rotate g, RotationY =>
            λ f', eval engine sc f' (rotation g) * (-1) + cur f
        | _, _ => cur
        end
  end.

(** The point and state of the last pan of [es], or [init] when there is
    none. *)
Fixpoint lastPan (es : list (Frame * Event)) (init : option (Point2D * string))
  : option (Point2D * string) :=
  match es with
  | [] => init
  | (_, Pan g) :: more => lastPan more (Some (location g, state g))
  | _ :: more => lastPan more init
  end.

(** The host calls the gesture callbacks of the script make: [trackPoint]
    on the plane tracker, [mul] and [add] on signals, and assignments to the
    placer's scale channels and [rotationY]. *)
Definition isGestureCall (c : Call) : bool :=
  match c with
  | CallTrackPoint n _ _ => bool_decide (n = "planeTracker0")
  | CallAssign n (ScaleX | ScaleY | ScaleZ | RotationY) _ =>
      bool_decide (n = "placer")
  | CallMul _ _ | CallAdd _ _ => true
  | _ => false
  end.

(** The placer is scaled by the same factor along x, y and z. *)
Definition uniform (engine : Engine) (w : World) : Prop :=
  ∀ f c c', c ∈ scaleChannels → c' ∈ scaleChannels →
    channelValue engine (scene w) f "placer" c
    = channelValue engine (scene w) f "placer" c'.

(** The reference scene without its placer. *)
Definition placerless : gmap string SceneObject := delete "placer" boombox.

(** A mixed run of gestures on the reference scene. *)
Definition session : list (Frame * Event) :=
  [(pinching, Pinch firstPinch); (rest, Pan swipe);
   (rotating, Rotate firstRotate); (pinching, Pinch secondPinch)].

(** The objects the load animates. *)
Definition animatedNames : list string := "base_jnt" :: speakerNames.

(** All the host calls of a successful load, in order. *)
Definition loadCalls : list Call :=
  lookupCalls ++ constructionCalls ++ bindingCalls ++ subscriptionCalls.

(** * Proofs *)

(** ** The load *)

Ltac run_script :=
  cbv beta iota zeta delta
      [script bind onScene find log ret throw timeDriver start easeInQuint
       easeOutElastic animate assign onPan_subscribe
       onPinch_subscribeWithSnapshot onRotate_subscribeWithSnapshot register
       scene nodes drivers calls subscriptions initial].

Ltac lookup_known :=
  cbv beta iota delta [found initial scene nodes]; eauto.

Lemma find_found {A} n (k : string → M World A) w :
  is_Some (nodes (scene w) !! n) →
  (let* x := onScene (find n) in k x) w = k n (found n w).
Proof.
  intros [o Ho].
  cbv beta iota zeta delta [bind onScene find log ret throw scene nodes
    drivers calls subscriptions found] in *.
  destruct w as [[ns ds cs] subs]. rewrite Ho. reflexivity.
Qed.

Lemma find_missing {A} n (k : string → M World A) w :
  nodes (scene w) !! n = None →
  (let* x := onScene (find n) in k x) w = (None, found n w).
Proof.
  intros Ho.
  cbv beta iota zeta delta [bind onScene find log ret throw scene nodes
    drivers calls subscriptions found] in *.
  destruct w as [[ns ds cs] subs]. rewrite Ho. reflexivity.
Qed.

Lemma load_found (objects : gmap string SceneObject) :
  has_objects objects → load objects = (Some tt, loaded objects).
Proof.
  intros H. unfold has_objects, sceneNames in H.
  repeat (apply Forall_cons in H as [? H]).
  unfold load, script.
  rewrite !find_found by done.
  run_script. reflexivity.
Qed.

Lemma load_inv (objects : gmap string SceneObject) (w : World) :
  load objects = (Some tt, w) → has_objects objects ∧ w = loaded objects.
Proof.
  intros H.
  assert (Hobj : has_objects objects).
  { unfold load, script in H.
    destruct (objects !! "base_jnt") eqn:E1;
      [|rewrite find_missing in H by lookup_known; discriminate H].
    rewrite find_found in H by lookup_known.
    destruct (objects !! "speaker_left_jnt") eqn:E2;
      [|rewrite find_missing in H by lookup_known; discriminate H].
    rewrite find_found in H by lookup_known.
    destruct (objects !! "speaker_right_jnt") eqn:E3;
      [|rewrite find_missing in H by lookup_known; discriminate H].
    rewrite find_found in H by lookup_known.
    destruct (objects !! "planeTracker0") eqn:E4;
      [|rewrite find_missing in H by lookup_known; discriminate H].
    rewrite find_found in H by lookup_known.
    destruct (objects !! "placer") eqn:E5;
      [|rewrite find_missing in H by lookup_known; discriminate H].
    unfold has_objects, sceneNames. repeat constructor; eauto. }
  split; [exact Hobj|].
  rewrite (load_found _ Hobj) in H. congruence.
Qed.

(** ** Delivering events to the script's subscriptions *)

Section Delivery.
Variable engine : Engine.

Lemma takeSnapshot_lookup sc f dict k :
  takeSnapshot engine sc f dict !! k = dict !! k ≫= sourceValue engine sc f.
Proof. unfold takeSnapshot. apply lookup_omap. Qed.

Lemma pinchDictionary_lookup c key :
  (c, key) ∈ pinchKeys →
  pinchDictionary !! key = Some (Property "placer" c).
Proof.
  unfold pinchKeys. rewrite !elem_of_cons, elem_of_nil.
  intros [E|[E|[E|[]]]]; inversion E; vm_compute; reflexivity.
Qed.

Lemma rotateDictionary_lookup :
  rotateDictionary !! "lastRotationY" = Some (Property "placer" RotationY).
Proof. vm_compute; reflexivity. Qed.

Lemma snapshot_property sc f dict key n c o :
  dict !! key = Some (Property n c) →
  nodes sc !! n = Some o →
  takeSnapshot engine sc f dict !! key
  = Some (eval engine sc f (getChannel c (transform o))).
Proof.
  intros Hk Hn. rewrite takeSnapshot_lookup, Hk. simpl.
  unfold channelValue. rewrite Hn. reflexivity.
Qed.

Lemma deliver_pan f g w :
  subscriptions w = scriptSubscriptions →
  deliver engine f (Pan g) w = (Some tt, withScene (panned g (scene w)) w).
Proof.
  intros Hs. unfold deliver, onScene, withScene. rewrite Hs. reflexivity.
Qed.

Lemma deliver_pinch f g w o :
  subscriptions w = scriptSubscriptions →
  nodes (scene w) !! "placer" = Some o →
  deliver engine f (Pinch g) w
  = (Some tt,
     withScene (pinched g (eval engine (scene w) f (scaleX (transform o)))
                          (eval engine (scene w) f (scaleY (transform o)))
                          (eval engine (scene w) f (scaleZ (transform o)))
                          (scene w)) w).
Proof.
  intros Hs Ho. unfold deliver, onScene, withScene. rewrite Hs.
  unfold scriptSubscriptions, notifyAll, notify, pinchCallback.
  unfold bind at 1 2 3. unfold ret at 1.
  rewrite (snapshot_property _ f _ "lastScaleX" "placer" ScaleX o),
          (snapshot_property _ f _ "lastScaleY" "placer" ScaleY o),
          (snapshot_property _ f _ "lastScaleZ" "placer" ScaleZ o);
    try assumption;
    try (apply pinchDictionary_lookup; unfold pinchKeys;
         rewrite !elem_of_cons; tauto).
  cbv beta iota zeta delta
    [bind mul add assign log ret throw nodes drivers calls pinched].
  rewrite <- !app_assoc. reflexivity.
Qed.

Lemma deliver_rotate f g w o :
  subscriptions w = scriptSubscriptions →
  nodes (scene w) !! "placer" = Some o →
  deliver engine f (Rotate g) w
  = (Some tt,
     withScene (rotated g (eval engine (scene w) f (rotationY (transform o)))
                  (scene w)) w).
Proof.
  intros Hs Ho. unfold deliver, onScene, withScene. rewrite Hs.
  unfold scriptSubscriptions, notifyAll, notify, rotateCallback.
  unfold bind at 1 2 3. unfold ret at 1 2.
  rewrite (snapshot_property _ f _ "lastRotationY" "placer" RotationY o);
    try assumption; try apply rotateDictionary_lookup.
  cbv beta iota zeta delta
    [bind mul add assign log ret throw nodes drivers calls rotated].
  rewrite <- !app_assoc. reflexivity.
Qed.
End Delivery.

Ltac each_scale_channel H :=
  unfold scaleChannels in H; rewrite !elem_of_cons, elem_of_nil in H;
  destruct H as [->|[->|[->|[]]]].

Ltac names_differ := let E := fresh in intros E; discriminate E.

Lemma nodes_panned g sc n :
  transform <$> nodes (panned g sc) !! n = transform <$> nodes sc !! n.
Proof.
  unfold panned; simpl. rewrite lookup_alter. case_decide as E; [|done].
  subst n. by destruct (nodes sc !! "planeTracker0").
Qed.

Lemma nodes_pinched_ne g vx vy vz sc n :
  n ≠ "placer" → nodes (pinched g vx vy vz sc) !! n = nodes sc !! n.
Proof. intros Hn. unfold pinched; simpl. by rewrite !lookup_alter_ne. Qed.

Lemma nodes_pinched g vx vy vz sc :
  nodes (pinched g vx vy vz sc) !! "placer"
  = withTransform (λ t, setChannel ScaleZ (Mul (scale g) (Const vz))
                          (setChannel ScaleY (Mul (scale g) (Const vy))
                             (setChannel ScaleX (Mul (scale g) (Const vx)) t)))
      <$> nodes sc !! "placer".
Proof.
  unfold pinched; simpl. rewrite !lookup_alter_eq.
  by destruct (nodes sc !! "placer").
Qed.

Lemma nodes_rotated_ne g v sc n :
  n ≠ "placer" → nodes (rotated g v sc) !! n = nodes sc !! n.
Proof. intros Hn. unfold rotated; simpl. by rewrite lookup_alter_ne. Qed.

Lemma nodes_rotated g v sc :
  nodes (rotated g v sc) !! "placer"
  = withTransform
      (setChannel RotationY (Add (Mul (rotation g) (Const (-1))) (Const v)))
      <$> nodes sc !! "placer".
Proof. unfold rotated; simpl. by rewrite lookup_alter_eq. Qed.

Lemma channel_panned g w n c :
  channel (withScene (panned g (scene w)) w) n c = channel w n c.
Proof.
  unfold channel, withScene. cbn [scene].
  assert (Hc : ∀ m : option SceneObject,
             (λ o, getChannel c (transform o)) <$> m
             = getChannel c <$> (transform <$> m)) by (by intros []).
  by rewrite !Hc, nodes_panned.
Qed.

Lemma channel_pinched_ne g vx vy vz w n c :
  n ≠ "placer" →
  channel (withScene (pinched g vx vy vz (scene w)) w) n c = channel w n c.
Proof.
  intros. unfold channel, withScene. cbn [scene]. by rewrite nodes_pinched_ne.
Qed.

Lemma channel_rotated_ne g v w n c :
  n ≠ "placer" →
  channel (withScene (rotated g v (scene w)) w) n c = channel w n c.
Proof.
  intros. unfold channel, withScene. cbn [scene]. by rewrite nodes_rotated_ne.
Qed.

Lemma loaded_settled objects : has_objects objects → settled (loaded objects).
Proof.
  intros H. unfold has_objects, sceneNames in H.
  apply Forall_cons in H as [[ob Hb] H]. apply Forall_cons in H as [[ol Hl] H].
  apply Forall_cons in H as [[or Hr] H]. apply Forall_cons in H as [Ht H].
  apply Forall_cons in H as [Hp _].
  split; try reflexivity.
  - intros c Hc. unfold channel, loaded, bound. cbn [scene nodes].
    rewrite !lookup_alter_ne by names_differ.
    rewrite !lookup_alter_eq, Hb. by each_scale_channel Hc.
  - intros c Hc. unfold channel, loaded, bound. cbn [scene nodes].
    rewrite !(lookup_alter_ne _ _ "speaker_right_jnt") by names_differ.
    rewrite !lookup_alter_eq. rewrite !lookup_alter_ne by names_differ.
    rewrite Hl. by each_scale_channel Hc.
  - intros c Hc. unfold channel, loaded, bound. cbn [scene nodes].
    rewrite !lookup_alter_eq. rewrite !lookup_alter_ne by names_differ.
    rewrite Hr. by each_scale_channel Hc.
  - unfold loaded, bound. cbn [scene nodes].
    by rewrite !lookup_alter_is_Some.
  - unfold loaded, bound. cbn [scene nodes].
    by rewrite !lookup_alter_is_Some.
Qed.

Section Reachable.
Variable engine : Engine.

Lemma settled_deliver f e w r w' :
  settled w → deliver engine f e w = (r, w') → r = Some tt ∧ settled w'.
Proof.
  intros [Hs Hd Hb Hl Hr Ht [o Ho]] Hstep.
  destruct e as [g|g|g].
  - rewrite deliver_pan in Hstep by done. inversion Hstep; subst; clear Hstep.
    split; [done|]. split; try done.
    + intros c Hc. rewrite channel_panned; auto.
    + intros c Hc. rewrite channel_panned; auto.
    + intros c Hc. rewrite channel_panned; auto.
    + unfold withScene, panned. cbn [scene nodes]. by rewrite lookup_alter_is_Some.
    + unfold withScene, panned. cbn [scene nodes]. rewrite lookup_alter_is_Some. eauto.
  - rewrite (deliver_pinch _ _ _ _ o) in Hstep by done.
    inversion Hstep; subst; clear Hstep.
    split; [done|]. split; try done.
    + intros c Hc. rewrite channel_pinched_ne by names_differ; auto.
    + intros c Hc. rewrite channel_pinched_ne by names_differ; auto.
    + intros c Hc. rewrite channel_pinched_ne by names_differ; auto.
    + unfold withScene, pinched, rotated. cbn [scene nodes]. by rewrite !lookup_alter_is_Some.
    + unfold withScene, pinched, rotated. cbn [scene nodes]. rewrite !lookup_alter_is_Some. eauto.
  - rewrite (deliver_rotate _ _ _ _ o) in Hstep by done.
    inversion Hstep; subst; clear Hstep.
    split; [done|]. split; try done.
    + intros c Hc. rewrite channel_rotated_ne by names_differ; auto.
    + intros c Hc. rewrite channel_rotated_ne by names_differ; auto.
    + intros c Hc. rewrite channel_rotated_ne by names_differ; auto.
    + unfold withScene, pinched, rotated. cbn [scene nodes]. by rewrite !lookup_alter_is_Some.
    + unfold withScene, pinched, rotated. cbn [scene nodes]. rewrite !lookup_alter_is_Some. eauto.
Qed.

Lemma reachable_settled objects w : reachable engine objects w → settled w.
Proof.
  induction 1 as [w Hload | w f e r w' _ IH Hstep].
  - apply load_inv in Hload as [Hobj ->]. by apply loaded_settled.
  - by destruct (settled_deliver _ _ _ _ _ IH Hstep).
Qed.
End Reachable.

(** * The reference engine meets the contract *)




(** * Pinch and rotate *)

(** C1 (as stated, refuted): with the scale captured at subscription time,
    a second pinch would start again from the scale the placer had when the
    script loaded. In the reference scene the placer starts at scale 1; after
    a pinch held at 2, a pinch held at 3 gives 6, not 3. *)
Lemma pinch_subscription_snapshot_refuted :
  ¬ pinch_scales_from_subscription referenceEngine boombox rest.
Proof.
  intros H.
  pose (w1 := (deliver referenceEngine pinching (Pinch firstPinch)
                 (loaded boombox)).2).
  assert (R : reachable referenceEngine boombox w1).
  { eapply reach_event with (r := Some tt) (w := loaded boombox)
                            (f := pinching) (e := Pinch firstPinch).
    - apply reach_load. vm_compute. reflexivity.
    - vm_compute. reflexivity. }
  assert (Hd : deliver referenceEngine pinching (Pinch secondPinch) w1
               = ((deliver referenceEngine pinching (Pinch secondPinch) w1).1,
                  (deliver referenceEngine pinching (Pinch secondPinch) w1).2))
    by apply surjective_pairing.
  assert (Hc : ScaleX ∈ scaleChannels) by (apply elem_of_cons; by left).
  assert (H0 : channelValue referenceEngine (scene (loaded boombox)) rest
                 "placer" ScaleX = Some 1) by (vm_compute; reflexivity).
  destruct (H _ _ _ _ _ _ _ R Hd Hc H0 pinching) as (v & Hv & Hq).
  vm_compute in Hv. injection Hv as <-. vm_compute in Hq. discriminate Hq.
Qed.

(** C1 (amended): for every pinch gesture event, the pinch callback sets
    each of the placer transform's three scale channels to the gesture's
    scale multiplied by the corresponding snapshot value ([lastScaleX],
    [lastScaleY], [lastScaleZ]), which is the value that channel has when the
    event is delivered. *)
Theorem pinch_scales_from_snapshot engine objects w f g :
  reachable engine objects w →
  ∃ w', deliver engine f (Pinch g) w = (Some tt, w')
        ∧ ∀ c key, (c, key) ∈ pinchKeys →
            ∃ v, takeSnapshot engine (scene w) f pinchDictionary !! key = Some v
                 ∧ channelValue engine (scene w) f "placer" c = Some v
                 ∧ channel w' "placer" c = Some (Mul (scale g) (Const v)).
Proof.
  intros Hr. apply reachable_settled in Hr as [Hs _ _ _ _ _ [o Ho]].
  eexists. split; [by apply (deliver_pinch _ _ _ _ o)|].
  intros c key Hk.
  exists (eval engine (scene w) f (getChannel c (transform o))).
  split; [|split].
  - apply (snapshot_property _ _ _ _ _ "placer"); [|done].
    by apply pinchDictionary_lookup.
  - unfold channelValue. by rewrite Ho.
  - unfold channel, withScene. cbn [scene]. rewrite nodes_pinched, Ho.
    unfold pinchKeys in Hk. rewrite !elem_of_cons, elem_of_nil in Hk.
    destruct Hk as [E|[E|[E|[]]]]; inversion E; reflexivity.
Qed.

(** The theorem of C1 at the reference scene: the first pinch after load. *)
Lemma pinch_scales_from_snapshot_example :
  reachable referenceEngine boombox (loaded boombox)
  ∧ ∃ w', deliver referenceEngine pinching (Pinch firstPinch) (loaded boombox)
          = (Some tt, w')
        ∧ ∀ c key, (c, key) ∈ pinchKeys →
            ∃ v, takeSnapshot referenceEngine (scene (loaded boombox)) pinching
                   pinchDictionary !! key = Some v
                 ∧ channelValue referenceEngine (scene (loaded boombox))
                     pinching "placer" c = Some v
                 ∧ channel w' "placer" c
                   = Some (Mul (scale firstPinch) (Const v)).
Proof.
  assert (R : reachable referenceEngine boombox (loaded boombox)).
  { apply reach_load. vm_compute. reflexivity. }
  split; [exact R|].
  exact (pinch_scales_from_snapshot referenceEngine boombox (loaded boombox)
           pinching firstPinch R).
Defined.

(** C2 (as stated, refuted): with the y rotation captured at subscription
    time, a second rotation would start again from the angle the placer had
    when the script loaded. In the reference scene the placer starts at
    angle 0; after a rotation held at 1/4, a rotation held at 1/2 gives
    -3/4, not -1/2. *)
Lemma rotate_subscription_snapshot_refuted :
  ¬ rotate_adds_to_subscription referenceEngine boombox rest.
Proof.
  intros H.
  pose (w1 := (deliver referenceEngine rotating (Rotate firstRotate)
                 (loaded boombox)).2).
  assert (R : reachable referenceEngine boombox w1).
  { eapply reach_event with (r := Some tt) (w := loaded boombox)
                            (f := rotating) (e := Rotate firstRotate).
    - apply reach_load. vm_compute. reflexivity.
    - vm_compute. reflexivity. }
  assert (Hd : deliver referenceEngine rotating (Rotate secondRotate) w1
               = ((deliver referenceEngine rotating (Rotate secondRotate) w1).1,
                  (deliver referenceEngine rotating (Rotate secondRotate) w1).2))
    by apply surjective_pairing.
  assert (H0 : channelValue referenceEngine (scene (loaded boombox)) rest
                 "placer" RotationY = Some 0) by (vm_compute; reflexivity).
  destruct (H _ _ _ _ _ _ R Hd H0 rotating) as (v & Hv & Hq).
  vm_compute in Hv. injection Hv as <-. vm_compute in Hq. discriminate Hq.
Qed.

(** C2 (amended): for every rotate gesture event, the rotate callback sets
    the placer transform's [rotationY] to the gesture's rotation multiplied
    by -1, added to the snapshot value [lastRotationY], which is the value
    [rotationY] has when the event is delivered. *)
Theorem rotate_adds_to_snapshot engine objects w f g :
  reachable engine objects w →
  ∃ w', deliver engine f (Rotate g) w = (Some tt, w')
        ∧ ∃ v, takeSnapshot engine (scene w) f rotateDictionary
                 !! "lastRotationY" = Some v
               ∧ channelValue engine (scene w) f "placer" RotationY = Some v
               ∧ channel w' "placer" RotationY
                 = Some (Add (Mul (rotation g) (Const (-1))) (Const v)).
Proof.
  intros Hr. apply reachable_settled in Hr as [Hs _ _ _ _ _ [o Ho]].
  eexists. split; [by apply (deliver_rotate _ _ _ _ o)|].
  exists (eval engine (scene w) f (rotationY (transform o))).
  split; [|split].
  - apply (snapshot_property _ _ _ _ _ "placer" RotationY); [|done].
    apply rotateDictionary_lookup.
  - unfold channelValue. by rewrite Ho.
  - unfold channel, withScene. cbn [scene]. by rewrite nodes_rotated, Ho.
Qed.

(** The theorem of C2 at the reference scene: the first rotation after
    load. *)
Lemma rotate_adds_to_snapshot_example :
  reachable referenceEngine boombox (loaded boombox)
  ∧ ∃ w', deliver referenceEngine rotating (Rotate firstRotate)
            (loaded boombox) = (Some tt, w')
        ∧ ∃ v, takeSnapshot referenceEngine (scene (loaded boombox)) rotating
                 rotateDictionary !! "lastRotationY" = Some v
               ∧ channelValue referenceEngine (scene (loaded boombox))
                   rotating "placer" RotationY = Some v
               ∧ channel w' "placer" RotationY
                 = Some (Add (Mul (rotation firstRotate) (Const (-1)))
                           (Const v)).
Proof.
  assert (R : reachable referenceEngine boombox (loaded boombox)).
  { apply reach_load. vm_compute. reflexivity. }
  split; [exact R|].
  exact (rotate_adds_to_snapshot referenceEngine boombox (loaded boombox)
           rotating firstRotate R).
Defined.

(** * Animations *)

Lemma channelValue_channel engine w f n c s :
  channel w n c = Some s →
  channelValue engine (scene w) f n c = Some (eval engine (scene w) f s).
Proof.
  unfold channel, channelValue. intros H.
  destruct (nodes (scene w) !! n) as [o|]; [|discriminate H].
  injection H as <-. reflexivity.
Qed.









(** C8: in every world the script can reach, the scale channels of the two
    speakers are all bound to the one signal [speakerAnimation] and the three
    scale channels of the base to the one signal [baseAnimation]; so at every
    frame the six speaker channels have one value (the left and right
    speakers scale identically, and uniformly in x, y and z), and the three
    base channels have one value. *)
Theorem animated_scaling_uniform engine objects w f :
  reachable engine objects w →
  ∃ speakers base,
    (∀ n c, n ∈ speakerNames → c ∈ scaleChannels →
       channel w n c = Some speakerAnimation
       ∧ channelValue engine (scene w) f n c = Some speakers)
    ∧ (∀ c, c ∈ scaleChannels →
         channel w "base_jnt" c = Some baseAnimation
         ∧ channelValue engine (scene w) f "base_jnt" c = Some base).
Proof.
  intros Hr. apply reachable_settled in Hr as [_ _ Hb Hl Hr _ _].
  exists (eval engine (scene w) f speakerAnimation),
         (eval engine (scene w) f baseAnimation).
  split.
  - intros n c Hn Hc.
    assert (Hs : channel w n c = Some speakerAnimation).
    { unfold speakerNames in Hn. rewrite !elem_of_cons, elem_of_nil in Hn.
      destruct Hn as [->|[->|[]]]; auto. }
    split; [exact Hs|]. by apply channelValue_channel.
  - intros c Hc. split; [auto|]. apply channelValue_channel. auto.
Qed.

(** The theorem of C8 at the reference scene, just loaded. *)
Lemma animated_scaling_uniform_example :
  reachable referenceEngine boombox (loaded boombox)
  ∧ ∃ speakers base,
      (∀ n c, n ∈ speakerNames → c ∈ scaleChannels →
         channel (loaded boombox) n c = Some speakerAnimation
         ∧ channelValue referenceEngine (scene (loaded boombox)) pinching n c
           = Some speakers)
      ∧ (∀ c, c ∈ scaleChannels →
           channel (loaded boombox) "base_jnt" c = Some baseAnimation
           ∧ channelValue referenceEngine (scene (loaded boombox)) pinching
               "base_jnt" c = Some base).
Proof.
  assert (R : reachable referenceEngine boombox (loaded boombox)).
  { apply reach_load. reflexivity. }
  split; [exact R|].
  exact (animated_scaling_uniform referenceEngine boombox (loaded boombox)
           pinching R).
Defined.

(** * Pan *)

(** C5: for every pan gesture event, the pan callback calls the plane
    tracker's [trackPoint] with the gesture's location, and the tracker's
    position is then the gesture's location. *)
Theorem pan_tracks_location engine objects w f g :
  reachable engine objects w →
  ∃ w' o,
    deliver engine f (Pan g) w = (Some tt, w')
    ∧ nodes (scene w') !! "planeTracker0" = Some o
    ∧ fst <$> tracked o = Some (location g)
    ∧ ∃ st, last (calls (scene w'))
            = Some (CallTrackPoint "planeTracker0" (location g) st).
Proof.
  intros Hr. apply reachable_settled in Hr as [Hs _ _ _ _ [o Ho] _].
  eexists _, _. split; [by apply deliver_pan|].
  unfold withScene, panned. cbn [scene nodes calls].
  split; [by rewrite lookup_alter_eq, Ho|].
  split; [reflexivity|].
  exists (state g). apply last_snoc.
Qed.

(** The theorem of C5 at the reference scene, for one swipe. *)
Lemma pan_tracks_location_example :
  reachable referenceEngine boombox (loaded boombox)
  ∧ ∃ w' o,
      deliver referenceEngine rest (Pan swipe) (loaded boombox) = (Some tt, w')
      ∧ nodes (scene w') !! "planeTracker0" = Some o
      ∧ fst <$> tracked o = Some (location swipe)
      ∧ ∃ st, last (calls (scene w'))
              = Some (CallTrackPoint "planeTracker0" (location swipe) st).
Proof.
  assert (R : reachable referenceEngine boombox (loaded boombox)).
  { apply reach_load. reflexivity. }
  split; [exact R|].
  exact (pan_tracks_location referenceEngine boombox (loaded boombox) rest
           swipe R).
Defined.

(** C10: for every pan gesture event, the pan callback makes exactly one
    host call, [trackPoint] on the plane tracker, and passes it both the
    gesture's location and the gesture's state; the tracker records both. *)
Theorem pan_passes_location_and_state engine objects w f g :
  reachable engine objects w →
  ∃ w' o,
    deliver engine f (Pan g) w = (Some tt, w')
    ∧ calls (scene w')
      = (calls (scene w)
         ++ [CallTrackPoint "planeTracker0" (location g) (state g)])%list
    ∧ nodes (scene w') !! "planeTracker0" = Some o
    ∧ tracked o = Some (location g, state g).
Proof.
  intros Hr. apply reachable_settled in Hr as [Hs _ _ _ _ [o Ho] _].
  eexists _, _. split; [by apply deliver_pan|].
  unfold withScene, panned. cbn [scene nodes calls].
  split; [reflexivity|].
  split; [by rewrite lookup_alter_eq, Ho|reflexivity].
Qed.

(** The theorem of C10 at the reference scene, for one swipe. *)
Lemma pan_passes_location_and_state_example :
  reachable referenceEngine boombox (loaded boombox)
  ∧ ∃ w' o,
      deliver referenceEngine rest (Pan swipe) (loaded boombox) = (Some tt, w')
      ∧ calls (scene w')
        = (calls (scene (loaded boombox))
           ++ [CallTrackPoint "planeTracker0" (location swipe)
                 (state swipe)])%list
      ∧ nodes (scene w') !! "planeTracker0" = Some o
      ∧ tracked o = Some (location swipe, state swipe).
Proof.
  assert (R : reachable referenceEngine boombox (loaded boombox)).
  { apply reach_load. reflexivity. }
  split; [exact R|].
  exact (pan_passes_location_and_state referenceEngine boombox
           (loaded boombox) rest swipe R).
Defined.

(** * Load order *)

(** C6: loading the script into a scene that has the five named objects
    succeeds, and the host calls it makes are, in this order: the five
    lookups by name, then the construction of the two drivers (each started
    once), the two samplers and the two animation signals, then the nine
    bindings of scale channels, then the three gesture subscriptions. No call
    is made twice; each driver is started once and each gesture stream is
    subscribed once. Afterwards the two drivers exist and are running, the
    scale channels of the base hold the base animation and those of the two
    speakers the speaker animation, and the three callbacks are subscribed
    with their snapshot dictionaries. *)
Theorem load_sequence objects :
  has_objects objects →
  ∃ w, load objects = (Some tt, w)
       ∧ calls (scene w)
         = (lookupCalls ++ constructionCalls ++ bindingCalls
            ++ subscriptionCalls)%list
       ∧ NoDup (calls (scene w))
       ∧ (∀ d, d ∈ [0; 1]%nat → count (isStart d) (calls (scene w)) = 1%nat)
       ∧ (∀ s, count (isSubscription s) (calls (scene w)) = 1%nat)
       ∧ length (drivers (scene w)) = 2%nat
       ∧ length (subscriptions w) = 3%nat
       ∧ drivers (scene w)
         = [{| parameters := baseDriverParameters; running := true |};
            {| parameters := speakerDriverParameters; running := true |}]
       ∧ (∀ c, c ∈ scaleChannels →
            channel w "base_jnt" c = Some (Animate 0 (EaseInQuint 0.9 1)))
       ∧ (∀ n c, n ∈ speakerNames → c ∈ scaleChannels →
            channel w n c = Some (Animate 1 (EaseOutElastic 0.7 0.85)))
       ∧ subscriptions w
         = [OnPan (panCallback "planeTracker0");
            OnPinch pinchDictionary (pinchCallback "placer");
            OnRotate rotateDictionary (rotateCallback "placer")].
Proof.
  intros H. exists (loaded objects). split; [by apply load_found|].
  pose proof (loaded_settled objects H) as [_ _ Hb Hl Hr _ _].
  split; [reflexivity|].
  split; [|split; [|split; [|split; [|split; [|split; [|split; [|split]]]]]]].
  - unfold loaded. cbn [scene calls].
    unfold lookupCalls, constructionCalls, bindingCalls, subscriptionCalls,
           sceneNames, scaleChannels, baseAnimation, speakerAnimation.
    cbn [fmap list_fmap app].
    repeat (apply NoDup_cons_2;
            [intros E;
             repeat (apply elem_of_cons in E as [E|E]; [discriminate E|]);
             by apply elem_of_nil in E|]).
    apply NoDup_nil_2.
  - intros d Hd. rewrite !elem_of_cons, elem_of_nil in Hd.
    destruct Hd as [->|[->|[]]]; reflexivity.
  - intros []; reflexivity.
  - reflexivity.
  - reflexivity.
  - reflexivity.
  - exact Hb.
  - intros n c Hn Hc. unfold speakerNames in Hn.
    rewrite !elem_of_cons, elem_of_nil in Hn.
    destruct Hn as [->|[->|[]]]; auto.
  - reflexivity.
Qed.

(** The theorem of C6 at the reference scene. *)
Lemma load_sequence_example :
  has_objects boombox
  ∧ ∃ w, load boombox = (Some tt, w)
         ∧ calls (scene w)
           = (lookupCalls ++ constructionCalls ++ bindingCalls
              ++ subscriptionCalls)%list
         ∧ NoDup (calls (scene w))
         ∧ (∀ d, d ∈ [0; 1]%nat → count (isStart d) (calls (scene w)) = 1%nat)
         ∧ (∀ s, count (isSubscription s) (calls (scene w)) = 1%nat)
         ∧ length (drivers (scene w)) = 2%nat
         ∧ length (subscriptions w) = 3%nat
         ∧ drivers (scene w)
           = [{| parameters := baseDriverParameters; running := true |};
              {| parameters := speakerDriverParameters; running := true |}]
         ∧ (∀ c, c ∈ scaleChannels →
              channel w "base_jnt" c = Some (Animate 0 (EaseInQuint 0.9 1)))
         ∧ (∀ n c, n ∈ speakerNames → c ∈ scaleChannels →
              channel w n c = Some (Animate 1 (EaseOutElastic 0.7 0.85)))
         ∧ subscriptions w
           = [OnPan (panCallback "planeTracker0");
              OnPinch pinchDictionary (pinchCallback "placer");
              OnRotate rotateDictionary (rotateCallback "placer")].
Proof.
  assert (H : has_objects boombox).
  { unfold has_objects, sceneNames.
    repeat (constructor; [eexists; vm_compute; reflexivity|]).
    constructor. }
  split; [exact H|]. exact (load_sequence boombox H).
Defined.

(** * The callbacks have no failure path of their own *)




(** * Frame *)

Lemma tracked_withTransform h (m : option SceneObject) :
  tracked <$> (withTransform h <$> m) = tracked <$> m.
Proof. by destruct m. Qed.

Lemma getChannel_setChannel_ne c c' s t :
  c ≠ c' → getChannel c (setChannel c' s t) = getChannel c t.
Proof. intros H. destruct c, c'; try reflexivity; by destruct H. Qed.

(** C9: each callback writes only its own channels. Delivering an event
    leaves every channel of the placer outside [written e] as it was (the
    three scale channels for a pinch, [rotationY] for a rotate, none for a
    pan), leaves the transform of every other object as it was, and, for a
    pinch or a rotate, leaves every tracker as it was; a pan changes no
    object but the plane tracker. *)
Theorem callbacks_write_only_their_channels engine objects w f e :
  reachable engine objects w →
  ∃ w', deliver engine f e w = (Some tt, w')
        ∧ (∀ c, c ∉ written e → channel w' "placer" c = channel w "placer" c)
        ∧ (∀ n, n ≠ "placer" →
             transform <$> nodes (scene w') !! n
             = transform <$> nodes (scene w) !! n)
        ∧ match e with
          | Pan _ =>
              ∀ n, n ≠ "planeTracker0" →
                   nodes (scene w') !! n = nodes (scene w) !! n
          | _ =>
              ∀ n, tracked <$> nodes (scene w') !! n
                   = tracked <$> nodes (scene w) !! n
          end.
Proof.
  intros Hr. apply reachable_settled in Hr as [Hs _ _ _ _ _ [o Ho]].
  destruct e as [g|g|g].
  - eexists. split; [by apply deliver_pan|].
    split; [|split].
    + intros c _. apply channel_panned.
    + intros n _. unfold withScene. cbn [scene]. apply nodes_panned.
    + intros n Hn. unfold withScene, panned. cbn [scene nodes].
      by rewrite lookup_alter_ne.
  - eexists. split; [by apply (deliver_pinch _ _ _ _ o)|].
    unfold withScene. cbn [scene]. split; [|split].
    + intros c Hc. unfold channel. cbn [scene].
      rewrite nodes_pinched, Ho. cbn [fmap option_fmap option_map].
      f_equal. unfold withTransform. cbn [transform].
      unfold written, scaleChannels in Hc.
      rewrite !elem_of_cons, elem_of_nil in Hc.
      rewrite !getChannel_setChannel_ne; [done|..]; intros ->; tauto.
    + intros n Hn. by rewrite nodes_pinched_ne.
    + intros n. destruct (decide (n = "placer")) as [->|Hn].
      * by rewrite nodes_pinched, tracked_withTransform.
      * by rewrite nodes_pinched_ne.
  - eexists. split; [by apply (deliver_rotate _ _ _ _ o)|].
    unfold withScene. cbn [scene]. split; [|split].
    + intros c Hc. unfold channel. cbn [scene].
      rewrite nodes_rotated, Ho. cbn [fmap option_fmap option_map].
      f_equal. unfold withTransform. cbn [transform].
      unfold written in Hc. rewrite !elem_of_cons, elem_of_nil in Hc.
      rewrite getChannel_setChannel_ne; [done|]; intros ->; tauto.
    + intros n Hn. by rewrite nodes_rotated_ne.
    + intros n. destruct (decide (n = "placer")) as [->|Hn].
      * by rewrite nodes_rotated, tracked_withTransform.
      * by rewrite nodes_rotated_ne.
Qed.

(** The theorem of C9 at the reference scene, for a rotation. *)
Lemma callbacks_write_only_their_channels_example :
  reachable referenceEngine boombox (loaded boombox)
  ∧ ∃ w', deliver referenceEngine rotating (Rotate firstRotate)
            (loaded boombox) = (Some tt, w')
          ∧ (∀ c, c ∉ written (Rotate firstRotate) →
               channel w' "placer" c = channel (loaded boombox) "placer" c)
          ∧ (∀ n, n ≠ "placer" →
               transform <$> nodes (scene w') !! n
               = transform <$> nodes (scene (loaded boombox)) !! n)
          ∧ ∀ n, tracked <$> nodes (scene w') !! n
                 = tracked <$> nodes (scene (loaded boombox)) !! n.
Proof.
  assert (R : reachable referenceEngine boombox (loaded boombox)).
  { apply reach_load. reflexivity. }
  split; [exact R|].
  exact (callbacks_write_only_their_channels referenceEngine boombox
           (loaded boombox) rotating (Rotate firstRotate) R).
Defined.

(** * More of the script's behaviour *)

(** ** Single deliveries, object by object *)

Lemma eval_drivers engine sc sc' f s :
  drivers sc = drivers sc' → eval engine sc f s = eval engine sc' f s.
Proof.
  intros H. induction s as [v|i|d smp|a IHa b IHb|a IHa b IHb]; cbn [eval];
    [reflexivity|reflexivity|by rewrite H|by rewrite IHa, IHb
    |by rewrite IHa, IHb].
Qed.

Lemma after_settled engine f e w : settled w → settled (after engine f e w).
Proof.
  intros H. unfold after.
  destruct (deliver engine f e w) as [r w'] eqn:E.
  by destruct (settled_deliver _ _ _ _ _ _ H E).
Qed.

Lemma after_drivers engine f e w :
  settled w → drivers (scene (after engine f e w)) = drivers (scene w).
Proof.
  intros H. pose proof (after_settled engine f e w H) as H'.
  by rewrite (settled_drivers _ H), (settled_drivers _ H').
Qed.

Lemma after_reachable engine objects f e w :
  reachable engine objects w → reachable engine objects (after engine f e w).
Proof.
  intros H. eapply reach_event; [exact H|]. unfold after.
  apply surjective_pairing.
Qed.

Lemma deliverAll_reachable engine objects es w :
  reachable engine objects w →
  reachable engine objects (deliverAll engine es w).
Proof.
  revert w. induction es as [|[f e] es IH]; intros w H; [exact H|].
  cbn [deliverAll fold_left]. apply IH. by apply after_reachable.
Qed.

(** Every delivery acts on every object as [react] says. *)
Lemma nodes_after engine f e w n :
  settled w →
  nodes (scene (after engine f e w)) !! n
  = react engine (scene w) f e n <$> nodes (scene w) !! n.
Proof.
  intros H. pose proof (settled_subscriptions _ H) as Hs.
  destruct (settled_placer _ H) as [o Ho]. unfold after.
  destruct e as [g|g|g]; unfold react.
  - rewrite deliver_pan by done. unfold withScene, panned. cbn [snd scene nodes].
    destruct (decide (n = "planeTracker0")) as [->|Hn].
    + by rewrite lookup_alter_eq.
    + rewrite lookup_alter_ne by done. by destruct (nodes (scene w) !! n).
  - rewrite (deliver_pinch _ _ _ _ o) by done. unfold withScene.
    cbn [snd scene]. destruct (decide (n = "placer")) as [->|Hn].
    + rewrite nodes_pinched, Ho. reflexivity.
    + rewrite nodes_pinched_ne by done. by destruct (nodes (scene w) !! n).
  - rewrite (deliver_rotate _ _ _ _ o) by done. unfold withScene.
    cbn [snd scene]. destruct (decide (n = "placer")) as [->|Hn].
    + rewrite nodes_rotated, Ho. reflexivity.
    + rewrite nodes_rotated_ne by done. by destruct (nodes (scene w) !! n).
Qed.

(** ** Loading *)

(** X1: the load succeeds exactly when the scene holds the five objects the
    script looks up. *)
Theorem load_succeeds_iff (objects : gmap string SceneObject) :
  (load objects).1 = Some tt ↔ has_objects objects.
Proof.
  split.
  - intros H. destruct (load objects) as [r w] eqn:E. cbn [fst] in H. subst r.
    by destruct (load_inv _ _ E).
  - intros H. by rewrite load_found.
Qed.

(** X2: when an object is missing the load throws at the first failed
    lookup. The host calls made are the lookups of the script's names up to
    and including the first missing one, all the names before it were found,
    and nothing else happened: the scene's objects are as they were, no
    driver was created and no callback was subscribed. *)
Theorem load_fails_before_any_effect (objects : gmap string SceneObject) :
  ¬ has_objects objects →
  ∃ w before n,
    load objects = (None, w)
    ∧ (before ++ [n])%list `prefix_of` sceneNames
    ∧ Forall (λ m, is_Some (objects !! m)) before
    ∧ objects !! n = None
    ∧ calls (scene w) = CallFind <$> (before ++ [n])%list
    ∧ nodes (scene w) = objects
    ∧ drivers (scene w) = []
    ∧ subscriptions w = [].
Proof.
  intros Hno. unfold load, script.
  destruct (objects !! "base_jnt") eqn:E1.
  2: { rewrite find_missing by lookup_known.
       eexists. exists [], "base_jnt".
       repeat split; try done;
         first [by eexists | repeat constructor; eauto]. }
  rewrite find_found by lookup_known.
  destruct (objects !! "speaker_left_jnt") eqn:E2.
  2: { rewrite find_missing by lookup_known.
       eexists. exists ["base_jnt"], "speaker_left_jnt".
       repeat split; try done;
         first [by eexists | repeat constructor; eauto]. }
  rewrite find_found by lookup_known.
  destruct (objects !! "speaker_right_jnt") eqn:E3.
  2: { rewrite find_missing by lookup_known.
       eexists. exists ["base_jnt"; "speaker_left_jnt"], "speaker_right_jnt".
       repeat split; try done;
         first [by eexists | repeat constructor; eauto]. }
  rewrite find_found by lookup_known.
  destruct (objects !! "planeTracker0") eqn:E4.
  2: { rewrite find_missing by lookup_known.
       eexists. exists ["base_jnt"; "speaker_left_jnt"; "speaker_right_jnt"],
         "planeTracker0".
       repeat split; try done;
         first [by eexists | repeat constructor; eauto]. }
  rewrite find_found by lookup_known.
  destruct (objects !! "placer") eqn:E5.
  2: { rewrite find_missing by lookup_known.
       eexists. exists ["base_jnt"; "speaker_left_jnt"; "speaker_right_jnt";
                  "planeTracker0"], "placer".
       repeat split; try done;
         first [by eexists | repeat constructor; eauto]. }
  destruct Hno. unfold has_objects, sceneNames. repeat constructor; eauto.
Qed.

(** The theorem of X2 at the reference scene without its placer. *)
Lemma load_fails_before_any_effect_example :
  ¬ has_objects placerless
  ∧ ∃ w before n,
      load placerless = (None, w)
      ∧ (before ++ [n])%list `prefix_of` sceneNames
      ∧ Forall (λ m, is_Some (placerless !! m)) before
      ∧ placerless !! n = None
      ∧ calls (scene w) = CallFind <$> (before ++ [n])%list
      ∧ nodes (scene w) = placerless
      ∧ drivers (scene w) = []
      ∧ subscriptions w = [].
Proof.
  assert (H : ¬ has_objects placerless).
  { unfold has_objects, sceneNames. intros H.
    do 4 (apply Forall_cons in H as [_ H]). apply Forall_cons in H as [[o H] _].
    vm_compute in H. discriminate H. }
  split; [exact H|]. exact (load_fails_before_any_effect placerless H).
Defined.

Lemma bound_lookup objects n :
  bound objects !! n
  = (if decide (n = "base_jnt")
     then withTransform
            (λ t, setChannel ScaleZ baseAnimation
                    (setChannel ScaleY baseAnimation
                       (setChannel ScaleX baseAnimation t)))
     else if decide (n ∈ speakerNames)
     then withTransform
            (λ t, setChannel ScaleZ speakerAnimation
                    (setChannel ScaleY speakerAnimation
                       (setChannel ScaleX speakerAnimation t)))
     else id) <$> objects !! n.
Proof.
  unfold bound.
  destruct (decide (n = "base_jnt")) as [->|Hb].
  { rewrite !lookup_alter_ne by names_differ. rewrite !lookup_alter_eq.
    by destruct (objects !! "base_jnt"). }
  destruct (decide (n = "speaker_left_jnt")) as [->|Hl].
  { rewrite !(lookup_alter_ne _ _ "speaker_right_jnt") by names_differ.
    rewrite !lookup_alter_eq. rewrite !lookup_alter_ne by names_differ.
    rewrite decide_True by (apply elem_of_cons; by left).
    by destruct (objects !! "speaker_left_jnt"). }
  destruct (decide (n = "speaker_right_jnt")) as [->|Hr].
  { rewrite !lookup_alter_eq. rewrite !lookup_alter_ne by names_differ.
    rewrite decide_True
      by (apply elem_of_cons; right; apply elem_of_cons; by left).
    by destruct (objects !! "speaker_right_jnt"). }
  rewrite !lookup_alter_ne by done.
  rewrite decide_False
    by (unfold speakerNames; rewrite !elem_of_cons, elem_of_nil; tauto).
  by destruct (objects !! n).
Qed.

(** X3: a successful load changes nothing in the scene but the scale
    channels of [base_jnt], [speaker_left_jnt] and [speaker_right_jnt]: every
    other object (the placer and the plane tracker among them) is as it was,
    and so are the position and rotation channels and the tracked point of
    the three animated objects. *)
Theorem load_changes_only_animated_scales (objects : gmap string SceneObject) :
  has_objects objects →
  ∃ w, load objects = (Some tt, w)
       ∧ (∀ n, n ∉ animatedNames → nodes (scene w) !! n = objects !! n)
       ∧ (∀ n c, c ∉ scaleChannels →
            channel w n c = channel (initial objects) n c)
       ∧ (∀ n, tracked <$> nodes (scene w) !! n = tracked <$> objects !! n).
Proof.
  intros H. exists (loaded objects). split; [by apply load_found|].
  unfold channel, loaded, initial. cbn [scene nodes].
  split; [|split].
  - intros n Hn. rewrite bound_lookup.
    assert (Hb : n ≠ "base_jnt")
      by (intros ->; apply Hn, elem_of_cons; by left).
    assert (Hs : n ∉ speakerNames)
      by (intros E; apply Hn, elem_of_cons; by right).
    rewrite !decide_False by done.
    by destruct (objects !! n).
  - intros n c Hc. rewrite bound_lookup.
    assert (Hs : ∀ s t, getChannel c
                          (setChannel ScaleZ s
                             (setChannel ScaleY s (setChannel ScaleX s t)))
                        = getChannel c t).
    { intros s t. unfold scaleChannels in Hc.
      rewrite !elem_of_cons, elem_of_nil in Hc.
      rewrite !getChannel_setChannel_ne; [done|..]; intros ->; tauto. }
    destruct (objects !! n) as [o|]; [|done].
    repeat case_decide; cbn [fmap option_fmap option_map withTransform
                               transform id]; by rewrite ?Hs.
  - intros n. rewrite bound_lookup.
    destruct (objects !! n) as [o|]; [|done]. by repeat case_decide.
Qed.

(** The theorem of X3 at the reference scene. *)
Lemma load_changes_only_animated_scales_example :
  has_objects boombox
  ∧ ∃ w, load boombox = (Some tt, w)
         ∧ (∀ n, n ∉ animatedNames → nodes (scene w) !! n = boombox !! n)
         ∧ (∀ n c, c ∉ scaleChannels →
              channel w n c = channel (initial boombox) n c)
         ∧ (∀ n, tracked <$> nodes (scene w) !! n = tracked <$> boombox !! n).
Proof.
  assert (H : has_objects boombox).
  { unfold has_objects, sceneNames.
    repeat (constructor; [eexists; vm_compute; reflexivity|]).
    constructor. }
  split; [exact H|]. exact (load_changes_only_animated_scales boombox H).
Defined.

(** ** What gestures never do *)

(** X4: gestures touch two objects only. In every world the script can
    reach, every object other than the placer and the plane tracker (the
    animated base and speakers among them) is exactly as the load left it. *)
Theorem gestures_leave_other_objects engine objects w :
  reachable engine objects w →
  ∀ n, n ≠ "placer" → n ≠ "planeTracker0" →
       nodes (scene w) !! n = nodes (scene (loaded objects)) !! n.
Proof.
  induction 1 as [w Hload | w f e r w' Hr IH Hstep]; intros n Hp Ht.
  - by apply load_inv in Hload as [_ ->].
  - rewrite <- (IH n Hp Ht).
    replace w' with (after engine f e w) by (unfold after; by rewrite Hstep).
    rewrite nodes_after by (by eapply reachable_settled).
    destruct (nodes (scene w) !! n) as [o|]; [|done].
    cbn [fmap option_fmap option_map].
    destruct e; unfold react; by rewrite decide_False.
Qed.

(** The theorem of X4 at the reference scene, after a mixed run of
    gestures. *)
Lemma gestures_leave_other_objects_example :
  reachable referenceEngine boombox (deliverAll referenceEngine session
                                       (loaded boombox))
  ∧ ∀ n, n ≠ "placer" → n ≠ "planeTracker0" →
         nodes (scene (deliverAll referenceEngine session (loaded boombox)))
           !! n
         = nodes (scene (loaded boombox)) !! n.
Proof.
  assert (R : reachable referenceEngine boombox
                (deliverAll referenceEngine session (loaded boombox))).
  { apply deliverAll_reachable, reach_load. reflexivity. }
  split; [exact R|].
  exact (gestures_leave_other_objects referenceEngine boombox _ R).
Defined.

Lemma calls_after engine f e w :
  settled w →
  ∃ made, calls (scene (after engine f e w))
          = (calls (scene w) ++ made)%list
          ∧ forallb isGestureCall made = true.
Proof.
  intros H. pose proof (settled_subscriptions _ H) as Hs.
  destruct (settled_placer _ H) as [o Ho]. unfold after.
  destruct e as [g|g|g].
  - rewrite deliver_pan by done. eexists. split; reflexivity.
  - rewrite (deliver_pinch _ _ _ _ o) by done. eexists. split; reflexivity.
  - rewrite (deliver_rotate _ _ _ _ o) by done. eexists. split; reflexivity.
Qed.

(** X5: once loaded, the script makes no host call but those of its gesture
    callbacks. The call trace of every reachable world is the load's trace
    followed by [trackPoint] calls on the plane tracker, [mul] and [add]
    calls on signals, and assignments to the placer's [scaleX], [scaleY],
    [scaleZ] and [rotationY]: no lookup, driver, sampler, animation or
    subscription is ever made again. *)
Theorem only_gesture_calls_after_load engine objects w :
  reachable engine objects w →
  ∃ made, calls (scene w) = (loadCalls ++ made)%list
          ∧ forallb isGestureCall made = true.
Proof.
  induction 1 as [w Hload | w f e r w' Hr IH Hstep].
  - apply load_inv in Hload as [_ ->]. exists []. split; [|reflexivity].
    unfold loadCalls. cbn [loaded scene calls]. by rewrite app_nil_r.
  - destruct IH as (ws & Hc & Hw).
    replace w' with (after engine f e w) by (unfold after; by rewrite Hstep).
    destruct (calls_after engine f e w) as (ws' & Hc' & Hw');
      [by eapply reachable_settled|].
    exists (ws ++ ws')%list. split.
    + by rewrite Hc', Hc, app_assoc.
    + by rewrite forallb_app, Hw, Hw'.
Qed.

(** The theorem of X5 at the reference scene, after a mixed run of
    gestures. *)
Lemma only_gesture_calls_after_load_example :
  reachable referenceEngine boombox (deliverAll referenceEngine session
                                       (loaded boombox))
  ∧ ∃ made,
      calls (scene (deliverAll referenceEngine session (loaded boombox)))
      = (loadCalls ++ made)%list
      ∧ forallb isGestureCall made = true.
Proof.
  assert (R : reachable referenceEngine boombox
                (deliverAll referenceEngine session (loaded boombox))).
  { apply deliverAll_reachable, reach_load. reflexivity. }
  split; [exact R|].
  exact (only_gesture_calls_after_load referenceEngine boombox _ R).
Defined.

(** X6: gestures never subscribe, unsubscribe, create, start or stop
    anything. In every reachable world there are exactly the three
    subscriptions of the load and its two drivers, both running. *)
Theorem subscriptions_and_drivers_fixed engine objects w :
  reachable engine objects w →
  subscriptions w = subscriptions (loaded objects)
  ∧ drivers (scene w) = drivers (scene (loaded objects))
  ∧ length (subscriptions w) = 3%nat
  ∧ length (drivers (scene w)) = 2%nat
  ∧ Forall (λ t, running t = true) (drivers (scene w)).
Proof.
  intros H. apply reachable_settled in H as [Hs Hd _ _ _ _ _].
  rewrite Hs, Hd. repeat split. repeat constructor.
Qed.

(** The theorem of X6 at the reference scene, after a mixed run of
    gestures. *)
Lemma subscriptions_and_drivers_fixed_example :
  reachable referenceEngine boombox (deliverAll referenceEngine session
                                       (loaded boombox))
  ∧ subscriptions (deliverAll referenceEngine session (loaded boombox))
    = subscriptions (loaded boombox)
  ∧ drivers (scene (deliverAll referenceEngine session (loaded boombox)))
    = drivers (scene (loaded boombox))
  ∧ length (subscriptions
              (deliverAll referenceEngine session (loaded boombox))) = 3%nat
  ∧ length (drivers (scene (deliverAll referenceEngine session
                              (loaded boombox)))) = 2%nat
  ∧ Forall (λ t, running t = true)
      (drivers (scene (deliverAll referenceEngine session (loaded boombox)))).
Proof.
  assert (R : reachable referenceEngine boombox
                (deliverAll referenceEngine session (loaded boombox))).
  { apply deliverAll_reachable, reach_load. reflexivity. }
  split; [exact R|].
  exact (subscriptions_and_drivers_fixed referenceEngine boombox _ R).
Defined.

(** ** Runs of gestures *)

Lemma placer_after engine f e w o :
  settled w →
  nodes (scene w) !! "placer" = Some o →
  nodes (scene (after engine f e w)) !! "placer"
  = Some (react engine (scene w) f e "placer" o).
Proof. intros H Ho. by rewrite nodes_after, Ho. Qed.

Lemma placerValue_run engine c es :
  ∀ w sc cur,
    settled w →
    drivers sc = drivers (scene w) →
    (∀ f, channelValue engine (scene w) f "placer" c = Some (cur f)) →
    ∀ f', channelValue engine (scene (deliverAll engine es w)) f' "placer" c
          = Some (placerValue engine sc c es cur f').
Proof.
  induction es as [|[f e] es IH]; intros w sc cur Hw Hd Hcur f'.
  { apply Hcur. }
  cbn [deliverAll fold_left placerValue fst snd].
  apply IH.
  - by apply after_settled.
  - by rewrite after_drivers.
  - intros f''. destruct (settled_placer _ Hw) as [o Ho].
    assert (Hnow : ∀ f0, eval engine (scene w) f0 (getChannel c (transform o))
                         = cur f0).
    { intros f0. specialize (Hcur f0). unfold channelValue in Hcur.
      rewrite Ho in Hcur. by injection Hcur. }
    assert (Hev : ∀ f0 s, eval engine (scene (after engine f e w)) f0 s
                          = eval engine sc f0 s).
    { intros f0 s. apply eval_drivers. by rewrite after_drivers. }
    unfold channelValue. rewrite (placer_after _ _ _ _ o) by done.
    cbn [mbind option_bind]. f_equal. rewrite Hev.
    assert (Hsc : ∀ f0 s, eval engine sc f0 s = eval engine (scene w) f0 s)
      by (intros; by apply eval_drivers).
    destruct e as [g|g|g]; unfold react.
    + rewrite decide_False by names_differ.
      rewrite Hsc. destruct c; apply Hnow.
    + rewrite decide_True by done.
      destruct c; cbn [withTransform transform getChannel setChannel
                         positionX positionY positionZ scaleX scaleY scaleZ
                         rotationX rotationY rotationZ eval];
        first [by rewrite Hsc, Hnow | f_equal; apply (Hnow f)].
    + rewrite decide_True by done.
      destruct c; cbn [withTransform transform getChannel setChannel
                         positionX positionY positionZ scaleX scaleY scaleZ
                         rotationX rotationY rotationZ eval];
        first [by rewrite Hsc, Hnow | f_equal; apply (Hnow f)].
Qed.

(** X7: what any run of gestures does to the placer. After the events of
    [es], each at its own frame, the value over time of every channel of the
    placer is [placerValue]: every pinch multiplies each scale channel's value
    at the frame of the pinch by the gesture's live scale, every rotate adds
    the negated live rotation to [rotationY]'s value at the frame of the
    rotate, pans change nothing, and the position channels and [rotationX],
    [rotationZ] keep their signal. So pinches compound and rotations add up
    across gestures, in the order delivered. *)
Theorem placer_after_gestures engine objects w c s es f' :
  reachable engine objects w →
  channel w "placer" c = Some s →
  channelValue engine (scene (deliverAll engine es w)) f' "placer" c
  = Some (placerValue engine (scene w) c es
            (λ f, eval engine (scene w) f s) f').
Proof.
  intros Hr Hs. apply placerValue_run.
  - by eapply reachable_settled.
  - reflexivity.
  - intros f. by apply channelValue_channel.
Qed.

(** The theorem of X7 at the reference scene: a pinch held at 2, a pan, a
    rotation and a pinch held at 3 leave the placer's x scale at 6 when it
    started at 1. *)
Lemma placer_after_gestures_example :
  reachable referenceEngine boombox (loaded boombox)
  ∧ channel (loaded boombox) "placer" ScaleX = Some (Const 1)
  ∧ channelValue referenceEngine
      (scene (deliverAll referenceEngine session (loaded boombox)))
      pinching "placer" ScaleX
    = Some (placerValue referenceEngine (scene (loaded boombox)) ScaleX
              session (λ f, eval referenceEngine (scene (loaded boombox)) f
                              (Const 1)) pinching)
  ∧ placerValue referenceEngine (scene (loaded boombox)) ScaleX session
      (λ f, eval referenceEngine (scene (loaded boombox)) f (Const 1))
      pinching == 6.
Proof.
  assert (R : reachable referenceEngine boombox (loaded boombox)).
  { apply reach_load. reflexivity. }
  assert (C : channel (loaded boombox) "placer" ScaleX = Some (Const 1)).
  { vm_compute. reflexivity. }
  split; [exact R|]. split; [exact C|]. split.
  - exact (placer_after_gestures referenceEngine boombox (loaded boombox)
             ScaleX (Const 1) session pinching R C).
  - vm_compute. reflexivity.
Defined.

Lemma tracked_run engine es :
  ∀ w o,
    settled w →
    nodes (scene w) !! "planeTracker0" = Some o →
    tracked <$> nodes (scene (deliverAll engine es w)) !! "planeTracker0"
    = Some (lastPan es (tracked o)).
Proof.
  induction es as [|[f e] es IH]; intros w o Hw Ho.
  { cbn [deliverAll fold_left lastPan]. by rewrite Ho. }
  cbn [deliverAll fold_left fst snd].
  assert (Ho' : nodes (scene (after engine f e w)) !! "planeTracker0"
                = Some (react engine (scene w) f e "planeTracker0" o))
    by (by rewrite nodes_after, Ho).
  etrans; [exact (IH _ _ (after_settled _ _ _ _ Hw) Ho')|].
  destruct e as [g|g|g]; unfold react; cbn [lastPan].
  - by rewrite decide_True.
  - by rewrite decide_False by names_differ.
  - by rewrite decide_False by names_differ.
Qed.

(** X8: the plane tracker follows the latest pan. After any run of gestures
    the point and state the tracker holds are those of the last pan of the
    run, whatever pinches and rotations came in between or after; with no
    pan in the run it holds what it held before. *)
Theorem tracker_follows_last_pan engine objects w o es :
  reachable engine objects w →
  nodes (scene w) !! "planeTracker0" = Some o →
  tracked <$> nodes (scene (deliverAll engine es w)) !! "planeTracker0"
  = Some (lastPan es (tracked o)).
Proof.
  intros Hr Ho. apply tracked_run; [by eapply reachable_settled|done].
Qed.

(** The theorem of X8 at the reference scene: after the mixed run the
    tracker holds the swipe. *)
Lemma tracker_follows_last_pan_example :
  reachable referenceEngine boombox (loaded boombox)
  ∧ nodes (scene (loaded boombox)) !! "planeTracker0" = Some restObject
  ∧ tracked <$> nodes (scene (deliverAll referenceEngine session
                                (loaded boombox))) !! "planeTracker0"
    = Some (lastPan session (tracked restObject))
  ∧ lastPan session (tracked restObject)
    = Some (location swipe, state swipe).
Proof.
  assert (R : reachable referenceEngine boombox (loaded boombox)).
  { apply reach_load. reflexivity. }
  assert (T : nodes (scene (loaded boombox)) !! "planeTracker0"
              = Some restObject).
  { vm_compute. reflexivity. }
  split; [exact R|]. split; [exact T|]. split; [|reflexivity].
  exact (tracker_follows_last_pan referenceEngine boombox (loaded boombox)
           restObject session R T).
Defined.

Lemma react_drivers engine sc sc' f e n o :
  drivers sc = drivers sc' →
  react engine sc f e n o = react engine sc' f e n o.
Proof.
  intros H. destruct e; unfold react, withTransform; [done|..];
    by rewrite !(eval_drivers engine sc sc' f _ H).
Qed.

(** X9: gestures of different kinds do not interfere. Delivering a pan, a
    pinch and a rotate (any two of different kinds, each at its own frame) in
    either order leaves the same scene objects: the pan only moves the plane
    tracker, the pinch only reads and writes the placer's scale channels, the
    rotate only reads and writes its [rotationY]. *)
Theorem different_gestures_commute engine objects w f1 e1 f2 e2 :
  reachable engine objects w →
  kind e1 ≠ kind e2 →
  nodes (scene (after engine f2 e2 (after engine f1 e1 w)))
  = nodes (scene (after engine f1 e1 (after engine f2 e2 w))).
Proof.
  intros Hr Hk. apply reachable_settled in Hr.
  apply map_eq. intros n.
  rewrite !nodes_after by (done || by apply after_settled).
  destruct (nodes (scene w) !! n) as [o|]; [|done].
  cbn [fmap option_fmap option_map]. f_equal.
  rewrite (react_drivers engine (scene (after engine f1 e1 w)) (scene w))
    by (by apply after_drivers).
  rewrite (react_drivers engine (scene (after engine f2 e2 w)) (scene w))
    by (by apply after_drivers).
  destruct e1, e2; try (by destruct Hk); unfold react;
    repeat case_decide; subst; try discriminate; reflexivity.
Qed.

(** The theorem of X9 at the reference scene: a pinch and a rotation. *)
Lemma different_gestures_commute_example :
  reachable referenceEngine boombox (loaded boombox)
  ∧ kind (Pinch firstPinch) ≠ kind (Rotate firstRotate)
  ∧ nodes (scene (after referenceEngine rotating (Rotate firstRotate)
                    (after referenceEngine pinching (Pinch firstPinch)
                       (loaded boombox))))
    = nodes (scene (after referenceEngine pinching (Pinch firstPinch)
                      (after referenceEngine rotating (Rotate firstRotate)
                         (loaded boombox)))).
Proof.
  assert (R : reachable referenceEngine boombox (loaded boombox)).
  { apply reach_load. reflexivity. }
  assert (K : kind (Pinch firstPinch) ≠ kind (Rotate firstRotate))
    by discriminate.
  split; [exact R|]. split; [exact K|].
  exact (different_gestures_commute referenceEngine boombox (loaded boombox)
           pinching (Pinch firstPinch) rotating (Rotate firstRotate) R K).
Defined.

Lemma placer_after_one engine f e w o c f' :
  settled w →
  nodes (scene w) !! "placer" = Some o →
  channelValue engine (scene (after engine f e w)) f' "placer" c
  = Some (placerValue engine (scene w) c [(f, e)]
            (λ f0, eval engine (scene w) f0 (getChannel c (transform o))) f').
Proof.
  intros Hw Ho.
  apply (placerValue_run engine c [(f, e)] w (scene w)); [done|done|].
  intros f0. unfold channelValue. by rewrite Ho.
Qed.

(** X10: gestures keep a uniformly scaled placer uniformly scaled. If the
    placer's three scale channels have one value at every frame when the
    script has loaded, they have one value at every frame in every world the
    script can reach: a pinch multiplies all three by the same factor. *)
Theorem placer_stays_uniform engine objects w :
  reachable engine objects w →
  uniform engine (loaded objects) →
  uniform engine w.
Proof.
  induction 1 as [w Hload | w f e r w' Hr IH Hstep]; intros Hu.
  - by apply load_inv in Hload as [_ ->].
  - specialize (IH Hu).
    replace w' with (after engine f e w) by (unfold after; by rewrite Hstep).
    pose proof (reachable_settled _ _ _ Hr) as Hw.
    destruct (settled_placer _ Hw) as [o Ho].
    assert (Hsame : ∀ f0 c c', c ∈ scaleChannels → c' ∈ scaleChannels →
              eval engine (scene w) f0 (getChannel c (transform o))
              = eval engine (scene w) f0 (getChannel c' (transform o))).
    { intros f0 c c' Hc Hc'. specialize (IH f0 c c' Hc Hc').
      unfold channelValue in IH. rewrite Ho in IH. by injection IH. }
    intros f' c c' Hc Hc'.
    rewrite !(placer_after_one _ _ _ _ o) by done. f_equal.
    pose proof (Hsame f c c' Hc Hc') as Hf.
    pose proof (Hsame f' c c' Hc Hc') as Hf'.
    each_scale_channel Hc; each_scale_channel Hc';
      destruct e; cbn [placerValue]; cbn [getChannel] in *;
      by rewrite ?Hf, ?Hf'.
Qed.

(** The theorem of X10 at the reference scene, after a mixed run of
    gestures. *)
Lemma placer_stays_uniform_example :
  reachable referenceEngine boombox (deliverAll referenceEngine session
                                       (loaded boombox))
  ∧ uniform referenceEngine (loaded boombox)
  ∧ uniform referenceEngine (deliverAll referenceEngine session
                               (loaded boombox)).
Proof.
  assert (R : reachable referenceEngine boombox
                (deliverAll referenceEngine session (loaded boombox))).
  { apply deliverAll_reachable, reach_load. reflexivity. }
  assert (U : uniform referenceEngine (loaded boombox)).
  { intros f c c' Hc Hc'.
    each_scale_channel Hc; each_scale_channel Hc'; vm_compute; reflexivity. }
  split; [exact R|]. split; [exact U|].
  exact (placer_stays_uniform referenceEngine boombox _ R U).
Defined.

(** X11: a gesture starts without a jump. At the frame a pinch is delivered,
    if its scale reads 1 there, every scale channel of the placer has the
    value it had before the delivery; at the frame a rotate is delivered, if
    its rotation reads 0 there, [rotationY] has the value it had before. *)
Theorem gesture_starts_without_jump engine objects w f :
  reachable engine objects w →
  (∀ g c, c ∈ scaleChannels →
     eval engine (scene w) f (scale g) == 1 →
     ∃ v v', channelValue engine (scene w) f "placer" c = Some v
             ∧ channelValue engine (scene (after engine f (Pinch g) w)) f
                 "placer" c = Some v'
             ∧ v' == v)
  ∧ (∀ g,
       eval engine (scene w) f (rotation g) == 0 →
       ∃ v v', channelValue engine (scene w) f "placer" RotationY = Some v
               ∧ channelValue engine (scene (after engine f (Rotate g) w)) f
                   "placer" RotationY = Some v'
               ∧ v' == v).
Proof.
  intros Hr. pose proof (reachable_settled _ _ _ Hr) as Hw.
  destruct (settled_placer _ Hw) as [o Ho]. split.
  - intros g c Hc H1. eexists _, _. split; [|split].
    + unfold channelValue. by rewrite Ho.
    + by apply (placer_after_one _ _ _ _ o).
    + each_scale_channel Hc; cbn [placerValue]; rewrite H1; ring.
  - intros g H0. eexists _, _. split; [|split].
    + unfold channelValue. by rewrite Ho.
    + by apply (placer_after_one _ _ _ _ o).
    + cbn [placerValue]. rewrite H0. ring.
Qed.

(** The theorem of X11 at the reference scene: a pinch whose scale reads 1
    when it is detected. *)
Lemma gesture_starts_without_jump_example :
  reachable referenceEngine boombox (loaded boombox)
  ∧ eval referenceEngine (scene (loaded boombox)) rest (scale firstPinch) == 1
  ∧ ∃ v v', channelValue referenceEngine (scene (loaded boombox)) rest
              "placer" ScaleY = Some v
            ∧ channelValue referenceEngine
                (scene (after referenceEngine rest (Pinch firstPinch)
                          (loaded boombox))) rest "placer" ScaleY = Some v'
            ∧ v' == v.
Proof.
  assert (R : reachable referenceEngine boombox (loaded boombox)).
  { apply reach_load. reflexivity. }
  assert (S : eval referenceEngine (scene (loaded boombox)) rest
                (scale firstPinch) == 1) by reflexivity.
  split; [exact R|]. split; [exact S|].
  destruct (gesture_starts_without_jump referenceEngine boombox
              (loaded boombox) rest R) as [Hp _].
  apply (Hp firstPinch ScaleY); [|exact S].
  do 1 (apply elem_of_cons; right). apply elem_of_cons. by left.
Defined.
